(** * EmailSentinel: the verification engine of [main.py]

    A shallow embedding of the token-bucket limiter, the MX lookup, the SMTP
    probe, the per-address pipeline, the batch runner, the Lambda entry point
    and the two command-line utilities, with the properties stated about
    them.

    Conventions of the embedding:
    - Python [str] is [string]; result dictionaries [{email, status, reason}]
      are records whose [status] is a string, as in the source;
    - Python [float] token counts and clock readings are rationals ([Q]);
    - the collaborators (DNS resolver, SMTP client, DynamoDB table, entropy
      source, limiter admission) are fields of an interface record over an
      abstract world; every call threads the world and appends an event to
      a trace;
    - exceptions are values of [exn]; all of the modelled classes derive from
      Python's [Exception]. *)

From Stdlib Require Import ZArith QArith Lqa List String Ascii Bool Lia Arith.
From Stdlib Require Import Sorted Permutation DecimalString.
Import ListNotations.

Local Open Scope string_scope.

(* ------------------------------------------------------------------ *)
(** ** Rate limiter *)

Module RateLimiter.

Local Open Scope Q_scope.

(** The fields of the class; [lock] only serialises callers and has no
    counterpart in a sequential model. *)
Record t : Type := mk {
  rate : Q;
  capacity : Z;
  tokens : Q;
  last_refill : Q
}.

(** [__init__], with [now] the reading of [monotonic()]. *)
Definition init (rate : Q) (capacity : Z) (now : Q) : t :=
  {| rate := rate; capacity := capacity;
     tokens := inject_Z capacity; last_refill := now |}.

(** Python's two-argument [min(a, b)]: [b] when [b < a], else [a]. *)
Definition py_min (a b : Q) : Q := if Qle_bool a b then a else b.

(** [_refill], with [now] the reading of [monotonic()]. *)
Definition _refill (now : Q) (s : t) : t :=
  let elapsed := now - last_refill s in
  let new_tokens := elapsed * rate s in
  {| rate := rate s; capacity := capacity s;
     tokens := py_min (inject_Z (capacity s)) (tokens s + new_tokens);
     last_refill := now |}.

(** [self.tokens -= 1]. *)
Definition debit (s : t) : t :=
  {| rate := rate s; capacity := capacity s;
     tokens := tokens s - 1; last_refill := last_refill s |}.


(** The [while self.tokens < 1] loop of [acquire]: [clock] holds the
    readings of [monotonic()] taken by the successive [_refill] calls after
    each sleep.  [None] means the readings ran out while still waiting. *)
Fixpoint acquire_loop (clock : list Q) (s : t) : option t :=
  if Qle_bool 1 (tokens s) then Some (debit s)
  else match clock with
       | [] => None
       | now :: clock' => acquire_loop clock' (_refill now s)
       end.

(** [acquire]: the first reading feeds the initial [_refill]. *)
Definition acquire (clock : list Q) (s : t) : option t :=
  match clock with
  | [] => None
  | now :: clock' => acquire_loop clock' (_refill now s)
  end.

(** Readings of a monotonic clock: none earlier than the one before. *)
Fixpoint ascending (from : Q) (clock : list Q) : Prop :=
  match clock with
  | [] => True
  | now :: clock' => from <= now /\ ascending now clock'
  end.

(** States a limiter can be observed in: after construction, after a
    [_refill], after a completed [acquire]. *)
Inductive reachable (s0 : t) : t -> Prop :=
| reach_init : reachable s0 s0
| reach_refill s now :
    reachable s0 s -> last_refill s <= now -> reachable s0 (_refill now s)
| reach_acquire s clock s' :
    reachable s0 s -> ascending (last_refill s) clock ->
    acquire clock s = Some s' -> reachable s0 s'.

(** The bucket invariant. *)
Definition within_bounds (s : t) : Prop :=
  0 <= tokens s /\ tokens s <= inject_Z (capacity s).

End RateLimiter.

(* ------------------------------------------------------------------ *)
(** ** Strings *)

Definition in_range (lo hi : nat) (c : ascii) : bool :=
  let n := nat_of_ascii c in (lo <=? n)%nat && (n <=? hi)%nat.

Definition one_of (chars : string) (c : ascii) : bool :=
  existsb (Ascii.eqb c) (list_ascii_of_string chars).

(** [a-zA-Z0-9] *)
Definition is_alnum (c : ascii) : bool :=
  in_range 97 122 c || in_range 65 90 c || in_range 48 57 c.

(** The three character classes of [EMAIL_REGEX]:
    [[a-zA-Z0-9_.+-]], [[a-zA-Z0-9-]] and [[a-zA-Z0-9-.]]. *)
Definition local_char (c : ascii) : bool := is_alnum c || one_of "_.+-" c.
Definition label_char (c : ascii) : bool := is_alnum c || one_of "-" c.
Definition tail_char (c : ascii) : bool := is_alnum c || one_of "-." c.

Definition newline : ascii := ascii_of_nat 10.

(** The longest prefix of [s] whose characters satisfy [p], and the rest. *)
Fixpoint span (p : ascii -> bool) (s : string) : string * string :=
  match s with
  | EmptyString => (EmptyString, EmptyString)
  | String c s' =>
      if p c then let (a, b) := span p s' in (String c a, b)
      else (EmptyString, s)
  end.

Definition nonempty (s : string) : bool :=
  match s with EmptyString => false | String _ _ => true end.

(** Python's [$]: the end of the string, or just before a newline that ends
    the string. *)
Definition at_dollar (s : string) : bool :=
  match s with
  | EmptyString => true
  | String c EmptyString => Ascii.eqb c newline
  | String _ (String _ _) => false
  end.

(** [EMAIL_REGEX.match]: the pattern
    [^[a-zA-Z0-9_.+-]+@[a-zA-Z0-9-]+\.[a-zA-Z0-9-.]+$].
    No class contains the character that must follow its run (the first has
    no [@], the second no dot, the third no newline), so each run is the
    longest one and the search needs no backtracking. *)
Definition EMAIL_REGEX_match (email : string) : bool :=
  let (local_run, after_local) := span local_char email in
  match after_local with
  | String c1 after_at =>
      let (label_run, after_label) := span label_char after_at in
      match after_label with
      | String c2 after_dot =>
          let (tail_run, rest) := span tail_char after_dot in
          Ascii.eqb c1 "@" && Ascii.eqb c2 "." &&
          nonempty local_run && nonempty label_run && nonempty tail_run &&
          at_dollar rest
      | EmptyString => false
      end
  | EmptyString => false
  end.

(** The language of [EMAIL_REGEX], read off the pattern. *)
Definition all_chars (p : ascii -> bool) (s : string) : Prop :=
  Forall (fun c => p c = true) (list_ascii_of_string s).

Definition EMAIL_REGEX_language (email : string) : Prop :=
  exists local_run label_run tail_run rest,
    email = local_run ++ String "@" (label_run ++ String "." (tail_run ++ rest))
    /\ all_chars local_char local_run /\ local_run <> ""
    /\ all_chars label_char label_run /\ label_run <> ""
    /\ all_chars tail_char tail_run /\ tail_run <> ""
    /\ (rest = "" \/ rest = String newline "").

(** [str.lower] on the characters that can reach it: an address that passed
    [EMAIL_REGEX] is ASCII. *)
Definition lower_char (c : ascii) : ascii :=
  if in_range 65 90 c then ascii_of_nat (nat_of_ascii c + 32) else c.

Fixpoint lower (s : string) : string :=
  match s with
  | EmptyString => EmptyString
  | String c s' => String (lower_char c) (lower s')
  end.

(** [email.rsplit("@", 1)] unpacked into two names: the split at the last
    [@]; [None] when there is none and the unpacking raises. *)
Fixpoint rsplit_at (s : string) : option (string * string) :=
  match s with
  | EmptyString => None
  | String c s' =>
      match rsplit_at s' with
      | Some (l, d) => Some (String c l, d)
      | None => if Ascii.eqb c "@" then Some (EmptyString, s') else None
      end
  end.

(** [s.rstrip('.')] *)
Fixpoint rstrip_dot (s : string) : string :=
  match s with
  | EmptyString => EmptyString
  | String c s' =>
      let t := rstrip_dot s' in
      if Ascii.eqb c "." && negb (nonempty t) then EmptyString else String c t
  end.

(** [str(n)] for an [int]. *)
Definition str_of_Z (n : Z) : string := NilZero.string_of_int (Z.to_int n).

(** [x in frozenset({...})] / [x in (...)]. *)
Definition in_strings (x : string) (xs : list string) : bool :=
  existsb (String.eqb x) xs.

Definition in_codes (x : Z) (xs : list Z) : bool := existsb (Z.eqb x) xs.

(* ------------------------------------------------------------------ *)
(** ** Configuration and constants *)

Record Config : Type := {
  sender_email : string;
  batch_size : Z
}.

(** The defaults of the [Config] dataclass. *)
Definition CONFIG : Config :=
  {| sender_email := "test@example.com"; batch_size := 10 |}.

Definition DISPOSABLE_EMAIL_DOMAINS : list string :=
  ["mailinator.com"; "guerrillamail.com"; "tempmail.com"; "10minutemail.com"].

Definition ROLE_BASED_EMAILS : list string :=
  ["admin"; "support"; "info"; "noreply"; "sales"; "contact"].

(** [validate_syntax]; the [lru_cache] around it does not change its value. *)
Definition validate_syntax (email : string) : bool := EMAIL_REGEX_match email.

(* ------------------------------------------------------------------ *)
(** ** Results, exceptions, events *)

(** The dictionaries [{"email": .., "status": .., "reason": ..}]. *)
Record result : Type := mk_result {
  email : string;
  status : string;
  reason : string
}.

(** [result["reason"] = r] *)
Definition set_reason (res : result) (r : string) : result :=
  {| email := email res; status := status res; reason := r |}.

(** Exception classes the code distinguishes or can meet; they all derive
    from [Exception]. *)
Inductive exn_class : Type :=
| SMTPException | NXDOMAIN | NoAnswer | Timeout | ValueError | OtherException.

Record exn : Type := mk_exn {
  exn_cls : exn_class;
  exn_text : string      (* [str(e)] *)
}.

(** One answer of an MX query: [r.preference] and [str(r.exchange)]. *)
Record mx_rdata : Type := {
  preference : Z;
  exchange : string
}.

(** What the engine does to the outside, in the order it does it.  Of the
    logger lines, the trace keeps the ones at error level and the two
    progress lines that delimit an address and a batch. *)
Inductive event : Type :=
| EvAcquire                                  (* rate_limiter.acquire() *)
| EvConnect (host : string)                  (* client.connect(), port 25 *)
| EvEhlo (host : string)
| EvMail (host sender : string)
| EvRcpt (host recipient : string)
| EvQuit (host : string)
| EvSocket (host : string)                   (* socket.create_connection *)
| EvResolve (domain : string)                (* resolver.resolve(.., "MX") *)
| EvGetItem (key : string)
| EvUpdateItem (key new_status new_reason : string)
| EvPutItem (item : result)
| EvUrandom
| EvLogProcessing (address : string)         (* "Processing email: .." *)
| EvLogBatch (number size : nat)             (* "Processed batch ..: .." *)
| EvLogError (text : string).

(** The collaborators, as the engine calls them.  A call may change the
    world and may raise.  [limiter_acquire] stands for
    [rate_limiter.acquire()] as the probe sees it, a call that delays and
    cannot raise; the limiter's own state is the subject of [RateLimiter]. *)
Record Collaborators (World : Type) : Type := {
  limiter_acquire : World -> World;
  smtp_connect : string -> World -> (exn + unit) * World;
  smtp_ehlo : string -> World -> (exn + unit) * World;
  smtp_mail : string -> string -> World -> (exn + unit) * World;
  smtp_rcpt : string -> string -> World -> (exn + Z * string) * World;
  smtp_quit : string -> World -> (exn + unit) * World;
  socket_connect : string -> World -> (exn + unit) * World;
  dns_resolve : string -> World -> (exn + list mx_rdata) * World;
  table_get_item : string -> World -> (exn + option result) * World;
  table_update_item :
    string -> string -> string -> World -> (exn + unit) * World;
  table_put_item : result -> World -> (exn + unit) * World;
  urandom_hex : World -> string * World
}.

Arguments limiter_acquire {World}.
Arguments smtp_connect {World}.
Arguments smtp_ehlo {World}.
Arguments smtp_mail {World}.
Arguments smtp_rcpt {World}.
Arguments smtp_quit {World}.
Arguments socket_connect {World}.
Arguments dns_resolve {World}.
Arguments table_get_item {World}.
Arguments table_update_item {World}.
Arguments table_put_item {World}.
Arguments urandom_hex {World}.

(* ------------------------------------------------------------------ *)
(** ** The effect monad: world, trace, exceptions *)

Record State (World : Type) : Type := mk_state {
  world : World;
  trace : list event
}.

Arguments mk_state {World}.
Arguments world {World}.
Arguments trace {World}.

Definition M (World A : Type) : Type :=
  State World -> (exn + A) * State World.

Section Monad.

Context {World : Type}.

Definition ret {A} (a : A) : M World A := fun st => (inr a, st).

Definition raise {A} (e : exn) : M World A := fun st => (inl e, st).

Definition bind {A B} (c : M World A) (k : A -> M World B) : M World B :=
  fun st =>
    match c st with
    | (inr a, st') => k a st'
    | (inl e, st') => (inl e, st')
    end.

(** [try: c  except Exception as e: h(e)] *)
Definition try_except {A} (c : M World A) (h : exn -> M World A)
  : M World A :=
  fun st =>
    match c st with
    | (inr a, st') => (inr a, st')
    | (inl e, st') => h e st'
    end.

(** [try: c  finally: f] *)
Definition try_finally {A} (c : M World A) (f : M World unit) : M World A :=
  fun st =>
    match c st with
    | (r, st') =>
        match f st' with
        | (inr _, st'') => (r, st'')
        | (inl e, st'') => (inl e, st'')
        end
    end.

(** [try: c  except: pass] *)
Definition swallow (c : M World unit) : M World unit :=
  try_except c (fun _ => ret tt).

(** An event with no answer, such as a log line. *)
Definition emit (ev : event) : M World unit :=
  fun st => (inr tt, mk_state (world st) (trace st ++ [ev])).

(** A call to a collaborator, recorded in the trace. *)
Definition call {A} (ev : event) (f : World -> (exn + A) * World)
  : M World A :=
  fun st =>
    let (r, w) := f (world st) in (r, mk_state w (trace st ++ [ev])).

(** A call that cannot raise. *)
Definition call_total {A} (ev : event) (f : World -> A * World)
  : M World A :=
  fun st =>
    let (a, w) := f (world st) in (inr a, mk_state w (trace st ++ [ev])).

End Monad.

Notation "x <- c ;; k" := (bind c (fun x => k))
  (at level 61, c at next level, right associativity).
Notation "c ;; k" := (bind c (fun _ => k))
  (at level 61, right associativity).

(* ------------------------------------------------------------------ *)
(** ** MX ordering *)

(** [sorted(answers, key=lambda x: x.preference)]: a stable sort, written as
    insertion from the right so that equal keys keep their order. *)
Fixpoint insert_by_preference (r : mx_rdata) (l : list mx_rdata)
  : list mx_rdata :=
  match l with
  | [] => [r]
  | x :: l' =>
      if (preference r <=? preference x)%Z then r :: l
      else x :: insert_by_preference r l'
  end.

Fixpoint sorted_by_preference (answers : list mx_rdata) : list mx_rdata :=
  match answers with
  | [] => []
  | r :: answers' => insert_by_preference r (sorted_by_preference answers')
  end.

(** [[str(r.exchange).rstrip('.') for r in sorted(...)]] *)
Definition mx_hostnames (answers : list mx_rdata) : list string :=
  map (fun r => rstrip_dot (exchange r)) (sorted_by_preference answers).

(* ------------------------------------------------------------------ *)
(** ** Batch arithmetic *)

(** The values of [range(i, stop, step)] for a positive [step]; [fuel]
    bounds the number of values. *)
Fixpoint range_from (fuel i stop step : nat) : list nat :=
  match fuel with
  | O => []
  | S fuel' =>
      if (i <? stop)%nat then i :: range_from fuel' (i + step) stop step
      else []
  end.

(** [range(0, stop, step)]: raises on a zero step, is empty on a negative
    one. *)
Definition py_range (stop : nat) (step : Z) : exn + list nat :=
  if (step =? 0)%Z then
    inl (mk_exn ValueError "range() arg 3 must not be zero")
  else if (step <? 0)%Z then inr []
  else inr (range_from stop 0 stop (Z.to_nat step)).

(** [xs[i:j]] for non-negative bounds. *)
Definition slice {A} (i j : nat) (xs : list A) : list A :=
  firstn (j - i) (skipn i xs).

(* ------------------------------------------------------------------ *)
(** ** The engine *)

Section Engine.

Context {World : Type}.
Variable env : Collaborators World.
Variable cfg : Config.

Local Abbreviation M := (M World).

(** [get_mx_records] *)
Definition get_mx_records (domain : string) : M (list string) :=
  try_except
    (answers <- call (EvResolve domain) (dns_resolve env domain) ;;
     ret (mx_hostnames answers))
    (fun e =>
       match exn_cls e with
       | NXDOMAIN | NoAnswer => ret []
       | _ =>
           emit (EvLogError
                   ("MX lookup failed for " ++ domain ++ ": " ++ exn_text e)) ;;
           ret []
       end).

(** [check_smtp_connection] *)
Definition check_smtp_connection (mx_host : string) : M bool :=
  try_except
    (call (EvSocket mx_host) (socket_connect env mx_host) ;; ret true)
    (fun _ => ret false).

(** [async with self.smtp_client(mx_host) as client: body]: the context
    manager admits through the limiter, connects, runs the body, and quits
    in its [finally], swallowing what [quit] raises. *)
Definition smtp_client {A} (mx_host : string) (body : M A) : M A :=
  call_total EvAcquire (fun w => (tt, limiter_acquire env w)) ;;
  try_finally
    (call (EvConnect mx_host) (smtp_connect env mx_host) ;; body)
    (swallow (call (EvQuit mx_host) (smtp_quit env mx_host))).

(** The commands sent inside the [with] block, up to the RCPT reply. *)
Definition rcpt_dialogue (mx recipient : string) : M (Z * string) :=
  call (EvEhlo mx) (smtp_ehlo env mx) ;;
  call (EvMail mx (sender_email cfg)) (smtp_mail env mx (sender_email cfg)) ;;
  call (EvRcpt mx recipient) (smtp_rcpt env mx recipient).

(** The [if]/[elif] chain on the RCPT code: a returned dictionary, or the
    text stored in [result["reason"]] before moving on. *)
Definition classify_rcpt (address : string) (code : Z) (message : string)
  : result + string :=
  if (code =? 250)%Z then
    inl (mk_result address "valid" "Mailbox exists")
  else if in_codes code [550; 551; 552; 553]%Z then
    inl (mk_result address "invalid" ("Mailbox rejected: " ++ message))
  else if in_codes code [421; 451; 452]%Z then
    inl (mk_result address "retry_later" ("Temporary failure: " ++ message))
  else
    inr ("Unexpected SMTP code: " ++ str_of_Z code ++ " " ++ message).

(** One turn of the [for mx in mx_records] loop of [verify_smtp]. *)
Definition probe_host (address mx : string) : M (result + string) :=
  try_except
    (smtp_client mx
       (reply <- rcpt_dialogue mx address ;;
        ret (classify_rcpt address (fst reply) (snd reply))))
    (fun e =>
       match exn_cls e with
       | SMTPException =>
           ret (inr ("SMTP error with " ++ mx ++ ": " ++ exn_text e))
       | _ =>
           ret (inr ("Connection error with " ++ mx ++ ": " ++ exn_text e))
       end).

Fixpoint verify_smtp_loop (address : string) (mx_records : list string)
         (res : result) : M result :=
  match mx_records with
  | [] => ret res
  | mx :: rest =>
      r <- probe_host address mx ;;
      match r with
      | inl final => ret final
      | inr note => verify_smtp_loop address rest (set_reason res note)
      end
  end.

(** [verify_smtp] *)
Definition verify_smtp (address : string) (mx_records : list string)
  : M result :=
  verify_smtp_loop address mx_records
    (mk_result address "undeliverable" "").

(** One turn of the loop of [is_catch_all]: [true] when it returns. *)
Definition catch_all_host (test_email mx : string) : M bool :=
  try_except
    (smtp_client mx
       (reply <- rcpt_dialogue mx test_email ;;
        ret (fst reply =? 250)%Z))
    (fun _ => ret false).

Fixpoint is_catch_all_loop (test_email : string) (mx_records : list string)
  : M bool :=
  match mx_records with
  | [] => ret false
  | mx :: rest =>
      accepted <- catch_all_host test_email mx ;;
      if accepted then ret true else is_catch_all_loop test_email rest
  end.

(** [is_catch_all] *)
Definition is_catch_all (domain : string) (mx_records : list string)
  : M bool :=
  hex <- call_total EvUrandom (urandom_hex env) ;;
  is_catch_all_loop ("fakeuser" ++ hex ++ "@" ++ domain) mx_records.

(** The [try] block under the comment [# DynamoDB write]. *)
Definition persist (res : result) : M unit :=
  try_except
    (existing <- call (EvGetItem (email res))
                      (table_get_item env (email res)) ;;
     match existing with
     | Some _ =>
         call (EvUpdateItem (email res) (status res) (reason res))
              (table_update_item env (email res) (status res) (reason res))
     | None => call (EvPutItem res) (table_put_item env res)
     end)
    (fun e =>
       emit (EvLogError ("DynamoDB operation failed for " ++ email res
                         ++ ": " ++ exn_text e))).

(** [process_email] *)
Definition process_email (address : string) : M result :=
  emit (EvLogProcessing address) ;;
  if negb (validate_syntax address) then
    ret (mk_result address "invalid" "Invalid syntax")
  else
    match rsplit_at address with
    | None =>
        raise (mk_exn ValueError
                 "not enough values to unpack (expected 2, got 1)")
    | Some (local_part, domain) =>
        let domain := lower domain in
        let local_part := lower local_part in
        if in_strings domain DISPOSABLE_EMAIL_DOMAINS then
          ret (mk_result address "invalid" "Disposable email")
        else if in_strings local_part ROLE_BASED_EMAILS then
          ret (mk_result address "caution" "Role-based email")
        else
          mx_records <- get_mx_records domain ;;
          let res :=
            match mx_records with
            | [] => mk_result address "invalid" "No MX records found"
            | _ :: _ => mk_result address "valid" "MX records found"
            end in
          persist res ;;
          ret res
    end.

(** [asyncio.gather] over the tasks: the results in the order of the tasks.  The
    tasks are run here one after the other, which is one of the schedules
    the event loop may choose. *)
Fixpoint gather {A} (tasks : list (M A)) : M (list A) :=
  match tasks with
  | [] => ret []
  | task :: tasks' =>
      a <- task ;;
      rest <- gather tasks' ;;
      ret (a :: rest)
  end.

(** The body of [for i in range(0, len(emails), CONFIG.batch_size)]. *)
Fixpoint process_batches (emails : list string) (starts : list nat)
         (results : list result) : M (list result) :=
  match starts with
  | [] => ret results
  | i :: starts' =>
      let size := Z.to_nat (batch_size cfg) in
      let batch := slice i (i + size) emails in
      batch_results <- gather (map process_email batch) ;;
      emit (EvLogBatch (i / size + 1) (List.length batch)) ;;
      process_batches emails starts' (results ++ batch_results)
  end.

(** [process_emails], the coroutine inside [lambda_handler]. *)
Definition process_emails (emails : list string) : M (list result) :=
  match py_range (List.length emails) (batch_size cfg) with
  | inl e => raise e
  | inr starts => process_batches emails starts []
  end.

End Engine.

(* ------------------------------------------------------------------ *)
(** ** A concrete world

    The world is the content of the table; DNS answers and RCPT replies are
    fixed per domain and per host; [store_up] tells whether the table
    answers or raises. *)

Definition store_error : exn := mk_exn OtherException "table unavailable".

Fixpoint table_lookup (key : string) (table : list result) : option result :=
  match table with
  | [] => None
  | item :: table' =>
      if String.eqb (email item) key then Some item
      else table_lookup key table'
  end.

Fixpoint table_update (key new_status new_reason : string)
         (table : list result) : list result :=
  match table with
  | [] => []
  | item :: table' =>
      if String.eqb (email item) key
      then mk_result key new_status new_reason :: table'
      else item :: table_update key new_status new_reason table'
  end.

Definition scripted
           (answers : string -> exn + list mx_rdata)
           (replies : string -> string -> exn + Z * string)
           (store_up : bool) : Collaborators (list result) :=
  {| limiter_acquire := fun w => w;
     smtp_connect := fun _ w => (inr tt, w);
     smtp_ehlo := fun _ w => (inr tt, w);
     smtp_mail := fun _ _ w => (inr tt, w);
     smtp_rcpt := fun mx rcpt w => (replies mx rcpt, w);
     smtp_quit := fun _ w => (inr tt, w);
     socket_connect := fun _ w => (inr tt, w);
     dns_resolve := fun domain w => (answers domain, w);
     table_get_item := fun key w =>
       if store_up then (inr (table_lookup key w), w)
       else (inl store_error, w);
     table_update_item := fun key s r w =>
       if store_up then (inr tt, table_update key s r w)
       else (inl store_error, w);
     table_put_item := fun item w =>
       if store_up then (inr tt, item :: w) else (inl store_error, w);
     urandom_hex := fun w => ("00000000", w) |}.

(** The state a run starts from: an empty table, an empty trace. *)
Definition start : State (list result) := mk_state [] [].

(** One MX host for every domain. *)
Definition one_mx (_ : string) : exn + list mx_rdata :=
  inr [ {| preference := 10; exchange := "mx1.example.com." |} ].

(** Every host rejects every recipient with 550. *)
Definition rejecting (_ _ : string) : exn + Z * string :=
  inr (550%Z, "5.1.1 user unknown").

(* ------------------------------------------------------------------ *)
(** ** The Lambda entry point *)

(** One record of an SQS event: a JSON object, kept as its fields in order;
    the values read here are strings. *)
Definition sqs_record : Type := list (string * string).

(** The event: only its ["Records"] key is read.  [None] stands for an event
    without the key; a value that is no list of records is outside the
    model. *)
Record lambda_event : Type := {
  Records : option (list sqs_record)
}.

(** The dictionary handed to [json.dumps] for the ["body"] of a response. *)
Inductive response_body : Type :=
| BodyMessage (message : string)
| BodyResults (message : string) (results : list result)
| BodyError (error : string).

Record response : Type := mk_response {
  statusCode : Z;
  body : response_body
}.

(** [record["body"]]; a missing key raises [KeyError('body')], whose [str]
    is the key in quotes. *)
Fixpoint record_field (key : string) (record : sqs_record) : option string :=
  match record with
  | [] => None
  | (k, v) :: record' =>
      if String.eqb k key then Some v else record_field key record'
  end.

Definition key_error (key : string) : exn :=
  mk_exn OtherException ("'" ++ key ++ "'").

(** [[record["body"] for record in sqs_records]] *)
Fixpoint record_bodies (sqs_records : list sqs_record) : exn + list string :=
  match sqs_records with
  | [] => inr []
  | record :: rest =>
      match record_field "body" record with
      | None => inl (key_error "body")
      | Some b =>
          match record_bodies rest with
          | inl e => inl e
          | inr bs => inr (b :: bs)
          end
      end
  end.

Definition is_empty {A} (xs : list A) : bool :=
  match xs with [] => true | _ :: _ => false end.

Section EntryPoint.

Context {World : Type}.
Variable env : Collaborators World.
Variable cfg : Config.

(** [lambda_handler]: the [try] block and its [except Exception].  The
    answer keeps the dictionary that the source hands to [json.dumps]; the
    log line that echoes the event before the [try] is not recorded. *)
Definition lambda_handler (event : lambda_event) : M World response :=
  try_except
    (let sqs_records :=
       match Records event with Some rs => rs | None => [] end in
     if is_empty sqs_records then
       ret (mk_response 200 (BodyMessage "No emails to process"))
     else
       match record_bodies sqs_records with
       | inl e => raise e
       | inr emails =>
           if is_empty emails then
             ret (mk_response 200 (BodyMessage "No emails to process"))
           else
             results <- process_emails env cfg emails ;;
             ret (mk_response 200 (BodyResults "Processed emails" results))
       end)
    (fun e =>
       emit (EvLogError ("Lambda execution failed: " ++ exn_text e)) ;;
       ret (mk_response 500 (BodyError (exn_text e)))).

End EntryPoint.

(* ------------------------------------------------------------------ *)
(** ** The command-line utilities *)

(** What the utilities catch by class: botocore's [ClientError], and
    [ValueError]; anything else leaves the function. *)
Inductive cli_exn : Type :=
| ClientError (text : string)
| CliValueError (text : string)
| CliOtherError (text : string).

(** What a utility does, in order: its calls and the lines it prints.  The
    line that shows a stored item keeps the item as it is. *)
Inductive cli_event : Type :=
| CliTableLoad
| CliGetItem (key : string)
| CliQueueAttributes
| CliSendMessage (message_body : string) (sent : bool)
| CliPrint (line : string)
| CliPrintItem (key : string) (item : result).

Record CliCollaborators (World : Type) : Type := {
  cli_table_load : World -> (cli_exn + unit) * World;
  cli_get_item : string -> World -> (cli_exn + option result) * World;
  cli_queue_attributes : string -> World -> (cli_exn + unit) * World;
  cli_send_message : string -> string -> World -> (cli_exn + unit) * World
}.

Arguments cli_table_load {World}.
Arguments cli_get_item {World}.
Arguments cli_queue_attributes {World}.
Arguments cli_send_message {World}.

Record CliState (World : Type) : Type := mk_cli {
  cli_world : World;
  cli_log : list cli_event
}.

Arguments mk_cli {World}.
Arguments cli_world {World}.
Arguments cli_log {World}.

Section Utilities.

Context {World : Type}.
Variable cli : CliCollaborators World.

Definition cli_note (ev : cli_event) (st : CliState World) : CliState World :=
  mk_cli (cli_world st) (cli_log st ++ [ev]).

(** The [for email in emails_to_check] loop of [check_emails]: [None] when
    it runs to its end, the exception that leaves it otherwise. *)
Fixpoint check_each (emails_to_check : list string) (st : CliState World)
  : option cli_exn * CliState World :=
  match emails_to_check with
  | [] => (None, st)
  | address :: rest =>
      let (r, w) := cli_get_item cli address (cli_world st) in
      let st1 := mk_cli w (cli_log st ++ [CliGetItem address]) in
      match r with
      | inr (Some item) => check_each rest (cli_note (CliPrintItem address item) st1)
      | inr None =>
          check_each rest
            (cli_note (CliPrint (address ++ " not found in the results.")) st1)
      | inl (ClientError text) =>
          check_each rest
            (cli_note (CliPrint ("Error checking " ++ address ++ ": " ++ text))
                      st1)
      | inl e => (Some e, st1)
      end
  end.

(** [check_emails] of [check_results.py] *)
Definition check_emails (table_name : string) (emails_to_check : list string)
           (st : CliState World) : option cli_exn * CliState World :=
  let (r, w) := cli_table_load cli (cli_world st) in
  let st1 := mk_cli w (cli_log st ++ [CliTableLoad]) in
  match r with
  | inl (ClientError text) =>
      (None,
       cli_note (CliPrint ("Error: Could not access table '" ++ table_name
                           ++ "': " ++ text)) st1)
  | inl e => (Some e, st1)
  | inr _ => check_each emails_to_check st1
  end.

(** The [for email in test_emails] loop of [send_test_emails], with the
    running [sent_count]. *)
Fixpoint send_each (queue_url : string) (test_emails : list string)
         (sent_count : nat) (st : CliState World)
  : (cli_exn + nat) * CliState World :=
  match test_emails with
  | [] => (inr sent_count, st)
  | address :: rest =>
      let (r, w) := cli_send_message cli queue_url address (cli_world st) in
      match r with
      | inr _ =>
          send_each queue_url rest (sent_count + 1)
            (mk_cli w (cli_log st ++ [CliSendMessage address true]))
      | inl e =>
          let st1 := mk_cli w (cli_log st ++ [CliSendMessage address false]) in
          match e with
          | ClientError text =>
              send_each queue_url rest sent_count
                (cli_note (CliPrint ("Error sending " ++ address
                                     ++ " to queue: " ++ text)) st1)
          | CliValueError text =>
              send_each queue_url rest sent_count
                (cli_note (CliPrint ("Invalid email format for " ++ address
                                     ++ ": " ++ text)) st1)
          | CliOtherError _ => (inl e, st1)
          end
      end
  end.

(** [send_test_emails] of [send_test_email.py] *)
Definition send_test_emails (queue_url : string) (test_emails : list string)
           (st : CliState World) : option cli_exn * CliState World :=
  let (r, w) := cli_queue_attributes cli queue_url (cli_world st) in
  let st1 := mk_cli w (cli_log st ++ [CliQueueAttributes]) in
  match r with
  | inl (ClientError text) =>
      (None,
       cli_note (CliPrint ("Error: Could not access queue '" ++ queue_url
                           ++ "': " ++ text)) st1)
  | inl e => (Some e, st1)
  | inr _ =>
      match send_each queue_url test_emails 0 st1 with
      | (inl e, st2) => (Some e, st2)
      | (inr sent_count, st2) =>
          if (0 <? sent_count)%nat then
            (None,
             cli_note (CliPrint ("Sent " ++ str_of_Z (Z.of_nat sent_count)
                                 ++ " emails to the queue.")) st2)
          else (None, cli_note (CliPrint "No emails sent successfully.") st2)
      end
  end.

End Utilities.

(* ------------------------------------------------------------------ *)
(** ** Vocabulary of the statements *)

(** Ascending order of preference. *)
Definition by_preference (a b : mx_rdata) : Prop :=
  (preference a <= preference b)%Z.

(** Every [EvConnect] comes right after an [EvAcquire]; [armed] tells
    whether the event before the list was an [EvAcquire]. *)
Fixpoint guarded_from (armed : bool) (tr : list event) : bool :=
  match tr with
  | [] => true
  | ev :: tr' =>
      match ev with
      | EvConnect _ => armed && guarded_from false tr'
      | EvAcquire => guarded_from true tr'
      | _ => guarded_from false tr'
      end
  end.

Definition connects_guarded (tr : list event) : bool := guarded_from false tr.

(** Whether a trace ends on an [EvAcquire]. *)
Fixpoint armed_after (armed : bool) (tr : list event) : bool :=
  match tr with
  | [] => armed
  | EvAcquire :: tr' => armed_after true tr'
  | _ :: tr' => armed_after false tr'
  end.

(** Events of an SMTP session or of a bare connection to port 25. *)
Definition is_smtp (ev : event) : bool :=
  match ev with
  | EvConnect _ | EvEhlo _ | EvMail _ _ | EvRcpt _ _ | EvQuit _
  | EvSocket _ => true
  | _ => false
  end.

(** The progress lines of a run: the address and batch delimiters. *)
Definition is_progress (ev : event) : bool :=
  match ev with
  | EvLogProcessing _ | EvLogBatch _ _ => true
  | _ => false
  end.

(** The whole quotient of [n] by [b], rounded up. *)
Definition ceil_div (n b : nat) : nat := (n + b - 1) / b.

(** The [k]-th chunk of [B] addresses. *)
Definition chunk (B : nat) (emails : list string) (k : nat) : list string :=
  slice (k * B) (k * B + B) emails.

(** The progress lines of the [k]-th chunk: one per address, then the line
    that closes batch number [k + 1]. *)
Definition chunk_progress (B : nat) (emails : list string) (k : nat)
  : list event :=
  (map EvLogProcessing (chunk B emails k)
   ++ [EvLogBatch (k + 1) (List.length (chunk B emails k))])%list.

Section Vocabulary.

Context {World : Type}.
Variable env : Collaborators World.
Variable cfg : Config.

(** The state once [quit] has been attempted on a host. *)
Definition after_quit (mx : string) (st : State World) : State World :=
  mk_state (snd (smtp_quit env mx (world st))) (trace st ++ [EvQuit mx]).

(** What one host attempt does up to the RCPT reply: admission, connection,
    greeting, sender, recipient. *)
Definition session (address mx : string) : M World (Z * string) :=
  call_total EvAcquire (fun w => (tt, limiter_acquire env w)) ;;
  call (EvConnect mx) (smtp_connect env mx) ;;
  rcpt_dialogue env cfg mx address.

(** The text [verify_smtp] records for a host whose session raised. *)
Definition error_note (mx : string) (e : exn) : string :=
  match exn_cls e with
  | SMTPException => "SMTP error with " ++ mx ++ ": " ++ exn_text e
  | _ => "Connection error with " ++ mx ++ ": " ++ exn_text e
  end.

(** The exception the upsert of [res] meets in world [w], if any: raised by
    [get_item], or by the [update_item] or [put_item] that follows it. *)
Definition store_failure (res : result) (w : World) : option exn :=
  match table_get_item env (email res) w with
  | (inl e, _) => Some e
  | (inr (Some _), w1) =>
      match table_update_item env (email res) (status res) (reason res) w1
      with
      | (inl e, _) => Some e
      | (inr _, _) => None
      end
  | (inr None, w1) =>
      match table_put_item env res w1 with
      | (inl e, _) => Some e
      | (inr _, _) => None
      end
  end.

(** The line logged when the upsert of [res] raised [e]. *)
Definition persistence_error_line (res : result) (e : exn) : event :=
  EvLogError ("DynamoDB operation failed for " ++ email res ++ ": "
              ++ exn_text e).

(** The result [process_email] holds when it reaches the upsert. *)
Definition mx_verdict (address : string) (mx_records : list string)
  : result :=
  match mx_records with
  | [] => mk_result address "invalid" "No MX records found"
  | _ :: _ => mk_result address "valid" "MX records found"
  end.

(** [inconclusive address hosts res st res' st']: tried in turn from [st]
    with running result [res], no host of [hosts] gives a terminal reply;
    the loop is then in [st'] with running result [res']. *)
Inductive inconclusive (address : string)
  : list string -> result -> State World -> result -> State World -> Prop :=
| inconclusive_nil res st : inconclusive address [] res st res st
| inconclusive_cons mx rest res st note st1 res' st' :
    probe_host env cfg address mx st = (inr (inr note), st1) ->
    inconclusive address rest (set_reason res note) st1 res' st' ->
    inconclusive address (mx :: rest) res st res' st'.

End Vocabulary.

(* ------------------------------------------------------------------ *)
(** ** Vocabulary of the further statements *)


(** The hosts connected to, the hosts quit, the recipients named and the
    number of admissions in a trace, in order. *)
Fixpoint connected_hosts (tr : list event) : list string :=
  match tr with
  | [] => []
  | EvConnect h :: tr' => h :: connected_hosts tr'
  | _ :: tr' => connected_hosts tr'
  end.

Fixpoint quit_hosts (tr : list event) : list string :=
  match tr with
  | [] => []
  | EvQuit h :: tr' => h :: quit_hosts tr'
  | _ :: tr' => quit_hosts tr'
  end.

Fixpoint recipients (tr : list event) : list string :=
  match tr with
  | [] => []
  | EvRcpt _ r :: tr' => r :: recipients tr'
  | _ :: tr' => recipients tr'
  end.

Fixpoint admissions (tr : list event) : nat :=
  match tr with
  | [] => 0
  | EvAcquire :: tr' => S (admissions tr')
  | _ :: tr' => admissions tr'
  end.

(** A string without [@]. *)
Definition no_at (s : string) : Prop :=
  all_chars (fun c => negb (Ascii.eqb c "@")) s.

(** A string without newline. *)
Definition no_newline (s : string) : Prop :=
  all_chars (fun c => negb (Ascii.eqb c newline)) s.

(** Whether a string ends with a newline. *)
Fixpoint ends_with_newline (s : string) : bool :=
  match s with
  | EmptyString => false
  | String c EmptyString => Ascii.eqb c newline
  | String _ s' => ends_with_newline s'
  end.

(** What a run of host attempts leaves in the trace: the first [k] hosts
    were admitted, connected to and quit, one after the other, and every
    recipient named was [rcpt]. *)
Definition tried (mx_records : list string) (rcpt : string) (k : nat)
           (suffix : list event) : Prop :=
  connected_hosts suffix = firstn k mx_records
  /\ quit_hosts suffix = firstn k mx_records
  /\ admissions suffix = k
  /\ Forall (eq rcpt) (recipients suffix)
  /\ (k <= List.length mx_records)%nat.

(** Calls to the table. *)
Definition is_store (ev : event) : bool :=
  match ev with
  | EvGetItem _ | EvUpdateItem _ _ _ | EvPutItem _ => true
  | _ => false
  end.

(** Whether a string ends with a dot. *)
Fixpoint ends_with_dot (s : string) : bool :=
  match s with
  | EmptyString => false
  | String c EmptyString => Ascii.eqb c "."
  | String _ s' => ends_with_dot s'
  end.

(** The number of records a table of the concrete world holds for a key. *)
Fixpoint count_key (key : string) (table : list result) : nat :=
  match table with
  | [] => 0
  | item :: table' =>
      (if String.eqb (email item) key then 1 else 0) + count_key key table'
  end.

(** What the read-then-write of [process_email] makes of a table of the
    concrete world: the record of the key updated where it is, or the new
    record put in front. *)
Definition upsert (res : result) (table : list result) : list result :=
  match table_lookup (email res) table with
  | Some _ => table_update (email res) (status res) (reason res) table
  | None => res :: table
  end.

(** The calls and the printed lines in the log of a utility. *)
Fixpoint looked_up (log : list cli_event) : list string :=
  match log with
  | [] => []
  | CliGetItem k :: log' => k :: looked_up log'
  | _ :: log' => looked_up log'
  end.

Fixpoint send_attempts (log : list cli_event) : list string :=
  match log with
  | [] => []
  | CliSendMessage b _ :: log' => b :: send_attempts log'
  | _ :: log' => send_attempts log'
  end.

Fixpoint sends_done (log : list cli_event) : nat :=
  match log with
  | [] => 0
  | CliSendMessage _ true :: log' => S (sends_done log')
  | _ :: log' => sends_done log'
  end.

Fixpoint printed (log : list cli_event) : nat :=
  match log with
  | [] => 0
  | CliPrint _ :: log' => S (printed log')
  | CliPrintItem _ _ :: log' => S (printed log')
  | _ :: log' => printed log'
  end.

(* ================================================================== *)
(** * Properties *)

(* ------------------------------------------------------------------ *)
(** ** Rate limiter *)

Module RateLimiterFacts.

Import RateLimiter.
Local Open Scope Q_scope.

Lemma py_min_le_l a b : py_min a b <= a.
Proof.
  unfold py_min. destruct (Qle_bool a b) eqn:E.
  - apply Qle_refl.
  - apply Qlt_le_weak, Qnot_le_lt. intro H.
    apply Qle_bool_iff in H. congruence.
Qed.

Lemma py_min_glb a b c : c <= a -> c <= b -> c <= py_min a b.
Proof. unfold py_min. destruct (Qle_bool a b); auto. Qed.

Lemma refill_rate now s : rate (_refill now s) = rate s.
Proof. reflexivity. Qed.

Lemma refill_capacity now s : capacity (_refill now s) = capacity s.
Proof. reflexivity. Qed.

Lemma refill_within_bounds now s :
  0 < rate s -> last_refill s <= now ->
  within_bounds s -> within_bounds (_refill now s).
Proof.
  intros Hr Hnow [Hlo Hhi]. split; cbn.
  - apply py_min_glb.
    + eapply Qle_trans; eauto.
    + assert (0 <= (now - last_refill s) * rate s).
      { apply Qmult_le_0_compat.
        - unfold Qminus. rewrite <- Qle_minus_iff. assumption.
        - apply Qlt_le_weak; assumption. }
      replace 0 with (0 + 0) by reflexivity.
      apply Qplus_le_compat; assumption.
  - apply py_min_le_l.
Qed.

Lemma debit_within_bounds s :
  Qle_bool 1 (tokens s) = true -> within_bounds s -> within_bounds (debit s).
Proof.
  intros H1 [Hlo Hhi]. apply Qle_bool_iff in H1. split; cbn.
  - unfold Qminus. rewrite <- Qle_minus_iff. assumption.
  - eapply Qle_trans; [| exact Hhi].
    rewrite <- (Qplus_0_r (tokens s)) at 2.
    unfold Qminus. apply Qplus_le_compat; [apply Qle_refl | discriminate].
Qed.

Lemma acquire_loop_within_bounds clock :
  forall s s', 0 < rate s -> ascending (last_refill s) clock ->
    within_bounds s -> acquire_loop clock s = Some s' ->
    within_bounds s' /\ rate s' = rate s /\ capacity s' = capacity s.
Proof.
  induction clock as [|now clock IH]; intros s s' Hr Hasc Hinv; cbn.
  - destruct (Qle_bool 1 (tokens s)) eqn:E; [|discriminate].
    intros [= <-]. auto using debit_within_bounds.
  - destruct (Qle_bool 1 (tokens s)) eqn:E.
    + intros [= <-]. auto using debit_within_bounds.
    + destruct Hasc as [Hnow Hasc]. intros Hacq.
      apply IH in Hacq; auto using refill_within_bounds.
Qed.

Lemma acquire_within_bounds clock s s' :
  0 < rate s -> ascending (last_refill s) clock ->
  within_bounds s -> acquire clock s = Some s' ->
  within_bounds s' /\ rate s' = rate s /\ capacity s' = capacity s.
Proof.
  destruct clock as [|now clock]; cbn; [discriminate|].
  intros Hr [Hnow Hasc] Hinv Hacq.
  apply acquire_loop_within_bounds in Hacq; auto using refill_within_bounds.
Qed.

Lemma reachable_within_bounds s0 s :
  0 < rate s0 -> within_bounds s0 -> reachable s0 s ->
  within_bounds s /\ rate s = rate s0 /\ capacity s = capacity s0.
Proof.
  intros Hr Hinv Hreach. induction Hreach as [|s now _ IH Hnow|s clock s' _ IH Hasc Hacq].
  - auto.
  - destruct IH as (IH & Er & Ec). repeat split; cbn; try assumption.
    + apply refill_within_bounds; [rewrite Er| |]; assumption.
    + apply refill_within_bounds; [rewrite Er| |]; assumption.
  - destruct IH as (IH & Er & Ec).
    apply acquire_within_bounds in Hacq; auto; [|rewrite Er; assumption].
    destruct Hacq as (? & -> & ->). auto.
Qed.

(** [acquire] returns right after a debit made with a token in hand. *)
Lemma acquire_loop_debits clock :
  forall s s', acquire_loop clock s = Some s' ->
    exists s1, 1 <= tokens s1 /\ s' = debit s1.
Proof.
  induction clock as [|now clock IH]; intros s s'; cbn;
    destruct (Qle_bool 1 (tokens s)) eqn:E; try discriminate.
  - intros [= <-]. exists s. split; [apply Qle_bool_iff; assumption | reflexivity].
  - intros [= <-]. exists s. split; [apply Qle_bool_iff; assumption | reflexivity].
  - apply IH.
Qed.

Lemma acquire_debits clock s s' :
  acquire clock s = Some s' -> exists s1, 1 <= tokens s1 /\ s' = debit s1.
Proof.
  destruct clock as [|now clock]; cbn; [discriminate|].
  apply acquire_loop_debits.
Qed.


End RateLimiterFacts.

(** C4 (as amended): for a limiter built with a rate above zero and a
    capacity that is not negative, every state observed after construction,
    after a [_refill] or after a completed [acquire] has its tokens within
    [0, capacity]; there a refill sets the tokens to the old count plus
    [elapsed * rate], capped at the capacity, and a completed [acquire] has
    debited exactly one token from a count of at least one. *)
Theorem limiter_tokens_within_bounds (R : Q) (C : Z) (t0 : Q) (s : RateLimiter.t) :
  (0 < R)%Q -> (0 <= C)%Z ->
  RateLimiter.reachable (RateLimiter.init R C t0) s ->
  (0 <= RateLimiter.tokens s /\ RateLimiter.tokens s <= inject_Z C)%Q
  /\ (forall now,
        RateLimiter.tokens (RateLimiter._refill now s) =
        RateLimiter.py_min (inject_Z C)
          (RateLimiter.tokens s + (now - RateLimiter.last_refill s) * R)%Q)
  /\ (forall clock s',
        RateLimiter.acquire clock s = Some s' ->
        exists s1, (1 <= RateLimiter.tokens s1)%Q
                   /\ RateLimiter.tokens s' = (RateLimiter.tokens s1 - 1)%Q).
Proof.
  intros HR HC Hreach.
  apply RateLimiterFacts.reachable_within_bounds in Hreach.
  - destruct Hreach as ([Hlo Hhi] & Er & Ec). cbn in Er, Ec.
    split; [|split].
    + rewrite Ec in Hhi. auto.
    + intros now. cbn. rewrite Er, Ec. reflexivity.
    + intros clock s' Hacq.
      apply RateLimiterFacts.acquire_debits in Hacq.
      destruct Hacq as (s1 & H1 & ->). exists s1. auto.
  - exact HR.
  - split; cbn.
    + change 0%Q with (inject_Z 0). rewrite <- Zle_Qle. exact HC.
    + apply Qle_refl.
Qed.

Lemma limiter_tokens_within_bounds_witness :
  (0 <= RateLimiter.tokens
          (RateLimiter._refill 1 (RateLimiter.init 10 20 0))
   /\ RateLimiter.tokens
          (RateLimiter._refill 1 (RateLimiter.init 10 20 0)) <= inject_Z 20)%Q.
Proof.
  apply (limiter_tokens_within_bounds 10 20 0).
  - reflexivity.
  - discriminate.
  - apply RateLimiter.reach_refill; [apply RateLimiter.reach_init | discriminate].
Defined.

(** C4 as first stated, without the bound on the capacity, fails: a limiter
    built with capacity -1 holds -1 tokens after a [_refill]. *)
Lemma limiter_negative_capacity_out_of_bounds :
  ~ (forall (R : Q) (C : Z) (t0 : Q) (s : RateLimiter.t),
        (0 < R)%Q ->
        RateLimiter.reachable (RateLimiter.init R C t0) s ->
        (0 <= RateLimiter.tokens s /\ RateLimiter.tokens s <= inject_Z C)%Q).
Proof.
  intros H.
  destruct (H 1 (-1)%Z 0 (RateLimiter._refill 1 (RateLimiter.init 1 (-1) 0)))
    as [Hlo _].
  - reflexivity.
  - apply RateLimiter.reach_refill; [apply RateLimiter.reach_init | discriminate].
  - vm_compute in Hlo. apply Hlo. reflexivity.
Qed.

(* ------------------------------------------------------------------ *)
(** ** The syntax check *)

Section Syntax.

Variable p : ascii -> bool.

Lemma span_append s :
  forall a b, span p s = (a, b) -> s = a ++ b.
Proof.
  induction s as [|c s IH]; cbn; intros a b.
  - intros [= <- <-]. reflexivity.
  - destruct (p c).
    + destruct (span p s) as [a' b'] eqn:E. intros [= <- <-].
      cbn. f_equal. apply IH. reflexivity.
    + intros [= <- <-]. reflexivity.
Qed.

Lemma span_all s :
  forall a b, span p s = (a, b) -> all_chars p a.
Proof.
  unfold all_chars. induction s as [|c s IH]; cbn; intros a b.
  - intros [= <- <-]. constructor.
  - destruct (p c) eqn:Ec.
    + destruct (span p s) as [a' b'] eqn:E. intros [= <- <-].
      cbn. constructor; [assumption | eapply IH; reflexivity].
    + intros [= <- <-]. constructor.
Qed.

Lemma span_stop a :
  forall c r, all_chars p a -> p c = false ->
    span p (a ++ String c r) = (a, String c r).
Proof.
  unfold all_chars. induction a as [|x a IH]; cbn; intros c r Ha Hc.
  - rewrite Hc. reflexivity.
  - inversion Ha as [|? ? Hx Ha']; subst. rewrite Hx, IH; auto.
Qed.

Lemma span_whole a : all_chars p a -> span p a = (a, "").
Proof.
  unfold all_chars. induction a as [|x a IH]; cbn; intros Ha.
  - reflexivity.
  - inversion Ha as [|? ? Hx Ha']; subst. rewrite Hx, IH; auto.
Qed.

End Syntax.

Lemma nonempty_true s : nonempty s = true <-> s <> "".
Proof. destruct s; cbn; split; congruence. Qed.

Lemma append_empty_r s : s ++ "" = s.
Proof. induction s; cbn; congruence. Qed.

Lemma at_dollar_true s : at_dollar s = true <-> s = "" \/ s = String newline "".
Proof.
  destruct s as [|c [|d s]]; cbn.
  - intuition congruence.
  - rewrite Ascii.eqb_eq. split.
    + intros ->. auto.
    + intros [H|H]; congruence.
  - split; [discriminate | intros [H|H]; discriminate].
Qed.

(** The matcher decides the language of the pattern. *)
Lemma EMAIL_REGEX_match_language address :
  EMAIL_REGEX_match address = true <-> EMAIL_REGEX_language address.
Proof.
  unfold EMAIL_REGEX_match, EMAIL_REGEX_language. split.
  - destruct (span local_char address) as [loc r1] eqn:E1.
    destruct r1 as [|c1 r2]; [discriminate|].
    destruct (span label_char r2) as [lab r3] eqn:E2.
    destruct r3 as [|c2 r4]; [discriminate|].
    destruct (span tail_char r4) as [tl r5] eqn:E3.
    rewrite !andb_true_iff, !Ascii.eqb_eq, !nonempty_true, at_dollar_true.
    intros (((((-> & ->) & Hloc) & Hlab) & Htl) & Hend).
    exists loc, lab, tl, r5.
    apply span_append in E1 as A1. apply span_append in E2 as A2.
    apply span_append in E3 as A3. subst.
    repeat split; eauto using span_all.
  - intros (loc & lab & tl & rest & -> & Hloc & Nloc & Hlab & Nlab & Htl & Ntl & Hend).
    rewrite span_stop by (assumption || reflexivity).
    rewrite span_stop by (assumption || reflexivity).
    assert (E3 : span tail_char (tl ++ rest) = (tl, rest)).
    { destruct Hend as [-> | ->].
      - rewrite append_empty_r. apply span_whole. assumption.
      - apply span_stop; [assumption | reflexivity]. }
    rewrite E3.
    apply nonempty_true in Nloc, Nlab, Ntl. rewrite Nloc, Nlab, Ntl.
    cbn. apply at_dollar_true. assumption.
Qed.

Lemma rsplit_at_append a r :
  exists l d, rsplit_at (a ++ String "@" r) = Some (l, d).
Proof.
  induction a as [|c a (l & d & IH)]; cbn.
  - destruct (rsplit_at r) as [[l d]|]; eauto.
  - rewrite IH. eauto.
Qed.

(** An address that passes the syntax check has an [@]: the unpacking of
    [rsplit] cannot raise. *)
Lemma validate_syntax_rsplit address :
  validate_syntax address = true ->
  exists l d, rsplit_at address = Some (l, d).
Proof.
  intros H. apply EMAIL_REGEX_match_language in H.
  destruct H as (loc & lab & tl & rest & -> & _).
  apply rsplit_at_append.
Qed.

(* ------------------------------------------------------------------ *)
(** ** MX lookup *)

Lemma insert_by_preference_perm r l :
  Permutation (r :: l) (insert_by_preference r l).
Proof.
  induction l as [|x l IH]; cbn.
  - apply Permutation_refl.
  - destruct (preference r <=? preference x)%Z.
    + apply Permutation_refl.
    + eapply perm_trans; [apply perm_swap|]. apply perm_skip, IH.
Qed.

Lemma sorted_by_preference_perm answers :
  Permutation answers (sorted_by_preference answers).
Proof.
  induction answers as [|r l IH]; cbn.
  - constructor.
  - eapply perm_trans; [apply perm_skip, IH|].
    apply insert_by_preference_perm.
Qed.

Lemma insert_by_preference_sorted r l :
  StronglySorted by_preference l ->
  StronglySorted by_preference (insert_by_preference r l).
Proof.
  induction l as [|x l IH]; cbn; intros Hl.
  - repeat constructor.
  - inversion Hl as [|? ? Hl' Hx]; subst.
    destruct (preference r <=? preference x)%Z eqn:E.
    + apply Z.leb_le in E. constructor; [assumption|].
      constructor; [exact E|].
      eapply Forall_impl; [|exact Hx].
      unfold by_preference. intros; lia.
    + apply Z.leb_gt in E. constructor; [auto|].
      eapply Permutation_Forall; [apply insert_by_preference_perm|].
      constructor; [unfold by_preference; lia | assumption].
Qed.

Lemma sorted_by_preference_sorted answers :
  StronglySorted by_preference (sorted_by_preference answers).
Proof.
  induction answers as [|r l IH]; cbn.
  - constructor.
  - apply insert_by_preference_sorted, IH.
Qed.

(** C3: [get_mx_records] always returns a list and never raises.  When the
    resolver raises, whatever the class of the exception (NXDOMAIN, NoAnswer,
    a timeout or any other), the list is empty; when it answers, the list
    holds the answers' host names, trailing dots removed, in ascending order
    of preference. *)
Theorem get_mx_records_absorbs_failures
        {World : Type} (env : Collaborators World)
        (domain : string) (st : State World) :
  (exists hosts, fst (get_mx_records env domain st) = inr hosts)
  /\ match fst (dns_resolve env domain (world st)) with
     | inl _ => fst (get_mx_records env domain st) = inr []
     | inr answers =>
         exists ordered,
           fst (get_mx_records env domain st)
           = inr (map (fun r => rstrip_dot (exchange r)) ordered)
           /\ Permutation answers ordered
           /\ StronglySorted by_preference ordered
     end.
Proof.
  unfold get_mx_records, try_except, bind, call, ret, emit.
  destruct (dns_resolve env domain (world st)) as [[e | answers] w]; cbn.
  - destruct (exn_cls e); cbn; eauto.
  - split; [eauto|]. exists (sorted_by_preference answers).
    auto using sorted_by_preference_perm, sorted_by_preference_sorted.
Qed.

(* ------------------------------------------------------------------ *)
(** ** The SMTP probe *)

Section Probe.

Context {World : Type}.
Variable env : Collaborators World.
Variable cfg : Config.

Local Abbreviation M := (M World).

Ltac run_monad :=
  unfold smtp_client, session, rcpt_dialogue, swallow, try_finally,
    try_except, bind, call, call_total, ret, after_quit; cbn.

(** A [with] block that only reads the RCPT reply: it ends in the state left
    by [quit], with the value of the reply or the exception of the session. *)
Lemma smtp_client_run {A} (f : Z * string -> A) address mx st :
  smtp_client env mx
    (reply <- rcpt_dialogue env cfg mx address ;; ret (f reply)) st
  = match session env cfg address mx st with
    | (inr reply, st1) => (inr (f reply), after_quit env mx st1)
    | (inl e, st1) => (inl e, after_quit env mx st1)
    end.
Proof.
  run_monad.
  destruct (smtp_connect env mx _) as [[e|[]] w1]; cbn;
    [destruct (smtp_quit env mx w1) as [[?|[]] ?]; reflexivity|].
  destruct (smtp_ehlo env mx w1) as [[e|[]] w2]; cbn;
    [destruct (smtp_quit env mx w2) as [[?|[]] ?]; reflexivity|].
  destruct (smtp_mail env mx _ w2) as [[e|[]] w3]; cbn;
    [destruct (smtp_quit env mx w3) as [[?|[]] ?]; reflexivity|].
  destruct (smtp_rcpt env mx address w3) as [[e|reply] w4]; cbn;
    destruct (smtp_quit env mx w4) as [[?|[]] ?]; reflexivity.
Qed.

(** The events of a session: admission, connection, then some first
    commands of the dialogue. *)
Lemma session_trace address mx st :
  exists tail,
    trace (snd (session env cfg address mx st))
    = (trace st ++ EvAcquire :: EvConnect mx :: tail)%list
    /\ (tail = [] \/ tail = [EvEhlo mx]
        \/ tail = [EvEhlo mx; EvMail mx (sender_email cfg)]
        \/ tail = [EvEhlo mx; EvMail mx (sender_email cfg);
                   EvRcpt mx address]).
Proof.
  run_monad.
  destruct (smtp_connect env mx _) as [[e|[]] w1]; cbn;
    [exists []; rewrite <- app_assoc; auto|].
  destruct (smtp_ehlo env mx w1) as [[e|[]] w2]; cbn;
    [exists [EvEhlo mx]; rewrite <- !app_assoc; auto|].
  destruct (smtp_mail env mx _ w2) as [[e|[]] w3]; cbn;
    [eexists; rewrite <- !app_assoc; cbn; eauto|].
  destruct (smtp_rcpt env mx address w3) as [[e|reply] w4]; cbn;
    eexists; rewrite <- !app_assoc; cbn; eauto 6.
Qed.

(** A session that reaches the RCPT reply went through the whole dialogue. *)
Lemma session_reply_trace address mx st reply st1 :
  session env cfg address mx st = (inr reply, st1) ->
  trace st1 = (trace st ++ [EvAcquire; EvConnect mx; EvEhlo mx;
                            EvMail mx (sender_email cfg); EvRcpt mx address])%list.
Proof.
  run_monad.
  destruct (smtp_connect env mx _) as [[e|[]] w1]; cbn; [discriminate|].
  destruct (smtp_ehlo env mx w1) as [[e|[]] w2]; cbn; [discriminate|].
  destruct (smtp_mail env mx _ w2) as [[e|[]] w3]; cbn; [discriminate|].
  destruct (smtp_rcpt env mx address w3) as [[e|r] w4]; cbn; [discriminate|].
  intros [= <- <-]. cbn. rewrite <- !app_assoc. reflexivity.
Qed.

(** One turn of the loop of [verify_smtp] never raises: it classifies the
    reply, or records why the session failed. *)
Lemma probe_host_run address mx st :
  probe_host env cfg address mx st
  = match session env cfg address mx st with
    | (inr reply, st1) =>
        (inr (classify_rcpt address (fst reply) (snd reply)),
         after_quit env mx st1)
    | (inl e, st1) => (inr (inr (error_note mx e)), after_quit env mx st1)
    end.
Proof.
  unfold probe_host, try_except.
  rewrite (smtp_client_run
             (fun reply => classify_rcpt address (fst reply) (snd reply))).
  destruct (session env cfg address mx st) as [[e|reply] st1];
    [|reflexivity].
  unfold error_note. destruct (exn_cls e); reflexivity.
Qed.

Lemma catch_all_host_run test_email mx st :
  catch_all_host env cfg test_email mx st
  = match session env cfg test_email mx st with
    | (inr reply, st1) => (inr (fst reply =? 250)%Z, after_quit env mx st1)
    | (inl e, st1) => (inr false, after_quit env mx st1)
    end.
Proof.
  unfold catch_all_host, try_except.
  rewrite (smtp_client_run (fun reply => (fst reply =? 250)%Z)).
  destruct (session env cfg test_email mx st) as [[e|reply] st1]; reflexivity.
Qed.

Lemma verify_smtp_loop_cons address mx rest res st :
  verify_smtp_loop env cfg address (mx :: rest) res st
  = match probe_host env cfg address mx st with
    | (inr (inl final), st1) => (inr final, st1)
    | (inr (inr note), st1) =>
        verify_smtp_loop env cfg address rest (set_reason res note) st1
    | (inl e, st1) => (inl e, st1)
    end.
Proof.
  cbn [verify_smtp_loop]. unfold bind.
  destruct (probe_host env cfg address mx st) as [[e|[final|note]] st1];
    reflexivity.
Qed.

(** Hosts that give no terminal reply are passed over: the loop goes on
    with what follows them. *)
Lemma verify_smtp_loop_skip address pre :
  forall post res st res1 st1,
    inconclusive env cfg address pre res st res1 st1 ->
    verify_smtp_loop env cfg address (pre ++ post) res st
    = verify_smtp_loop env cfg address post res1 st1.
Proof.
  induction pre as [|mx pre IH]; intros post res st res1 st1 Hinc;
    inversion Hinc; subst.
  - reflexivity.
  - cbn [app]. rewrite verify_smtp_loop_cons.
    match goal with H : probe_host _ _ _ _ _ = _ |- _ => rewrite H end.
    apply IH. assumption.
Qed.

Lemma inconclusive_status address hosts :
  forall res st res1 st1,
    inconclusive env cfg address hosts res st res1 st1 ->
    status res1 = status res /\ email res1 = email res.
Proof.
  induction hosts as [|mx hosts IH]; intros res st res1 st1 Hinc;
    inversion Hinc; subst.
  - auto.
  - match goal with H : inconclusive _ _ _ _ _ _ _ _ |- _ =>
      apply IH in H; cbn in H end.
    assumption.
Qed.

Lemma in_codes_In code codes : in_codes code codes = true <-> In code codes.
Proof.
  unfold in_codes. rewrite existsb_exists. split.
  - intros (x & Hx & E). apply Z.eqb_eq in E. subst. assumption.
  - intros H. exists code. split; [assumption | apply Z.eqb_refl].
Qed.

End Probe.

(** C2: in [verify_smtp], the first host that answers RCPT with a terminal
    code settles the result and ends the loop.  Let the hosts of [pre] give
    no terminal reply and let [mx], tried next, answer [code message]; the
    run then ends in the state left by that host's [quit], no later host
    having been tried, with: [valid] and "Mailbox exists" for 250; [invalid]
    for 550 to 553; [retry_later] carrying the host's message for 421, 451 and
    452.  Any other code is recorded as the running reason and the loop goes
    on with the next host.  When no host at all gives a terminal reply, the
    result has status [undeliverable]. *)
Theorem verify_smtp_first_terminal
        {World : Type} (env : Collaborators World) (cfg : Config)
        (address : string) :
  (forall pre mx post st res1 st1 code message st2,
      inconclusive env cfg address pre
                   (mk_result address "undeliverable" "") st res1 st1 ->
      session env cfg address mx st1 = (inr (code, message), st2) ->
      let run := verify_smtp env cfg address (pre ++ mx :: post) st in
      let st3 := after_quit env mx st2 in
      (code = 250%Z ->
       run = (inr (mk_result address "valid" "Mailbox exists"), st3))
      /\ (In code [550; 551; 552; 553]%Z ->
          run = (inr (mk_result address "invalid"
                                ("Mailbox rejected: " ++ message)), st3))
      /\ (In code [421; 451; 452]%Z ->
          run = (inr (mk_result address "retry_later"
                                ("Temporary failure: " ++ message)), st3))
      /\ (code <> 250%Z -> ~ In code [550; 551; 552; 553]%Z ->
          ~ In code [421; 451; 452]%Z ->
          run = verify_smtp_loop env cfg address post
                  (mk_result address "undeliverable"
                     ("Unexpected SMTP code: " ++ str_of_Z code
                      ++ " " ++ message)) st3)
      /\ trace st3
         = (trace st1 ++ [EvAcquire; EvConnect mx; EvEhlo mx;
                          EvMail mx (sender_email cfg); EvRcpt mx address;
                          EvQuit mx])%list)
  /\ (forall hosts st res st',
         inconclusive env cfg address hosts
                      (mk_result address "undeliverable" "") st res st' ->
         verify_smtp env cfg address hosts st = (inr res, st')
         /\ status res = "undeliverable").
Proof.
  split.
  - intros pre mx post st res1 st1 code message st2 Hpre Hsess run st3.
    assert (Hrun : run = match classify_rcpt address code message with
                         | inl final => (inr final, st3)
                         | inr note =>
                             verify_smtp_loop env cfg address post
                               (set_reason res1 note) st3
                         end).
    { subst run. unfold verify_smtp.
      rewrite (verify_smtp_loop_skip env cfg address pre _ _ _ _ _ Hpre).
      rewrite verify_smtp_loop_cons, probe_host_run, Hsess. cbn [fst snd].
      destruct (classify_rcpt address code message); reflexivity. }
    apply inconclusive_status in Hpre as [Hst Hem]. cbn in Hst, Hem.
    unfold classify_rcpt in Hrun.
    repeat split.
    + intros ->. exact Hrun.
    + intros Hin. destruct (code =? 250)%Z eqn:E250.
      { apply Z.eqb_eq in E250. subst. cbn in Hin. intuition discriminate. }
      apply in_codes_In in Hin. rewrite Hin in Hrun. exact Hrun.
    + intros Hin. destruct (code =? 250)%Z eqn:E250.
      { apply Z.eqb_eq in E250. subst. cbn in Hin. intuition discriminate. }
      destruct (in_codes code [550; 551; 552; 553]%Z) eqn:E5.
      { apply in_codes_In in E5. cbn in Hin, E5. lia. }
      apply in_codes_In in Hin. rewrite Hin in Hrun. exact Hrun.
    + intros N250 N5 N4.
      apply Z.eqb_neq in N250. rewrite N250 in Hrun.
      destruct (in_codes code [550; 551; 552; 553]%Z) eqn:E5.
      { apply in_codes_In in E5. contradiction. }
      destruct (in_codes code [421; 451; 452]%Z) eqn:E4.
      { apply in_codes_In in E4. contradiction. }
      rewrite Hrun. unfold set_reason. rewrite Hst, Hem. reflexivity.
    + subst st3. unfold after_quit. cbn [trace].
      rewrite (session_reply_trace env cfg _ _ _ _ _ Hsess).
      rewrite <- app_assoc. reflexivity.
  - intros hosts st res st' Hinc. split.
    + unfold verify_smtp.
      rewrite <- (app_nil_r hosts).
      rewrite (verify_smtp_loop_skip env cfg address hosts _ _ _ _ _ Hinc).
      reflexivity.
    + apply inconclusive_status in Hinc as [Hst _]. exact Hst.
Qed.

Lemma verify_smtp_first_terminal_witness :
  verify_smtp (scripted one_mx rejecting true) CONFIG "user@example.com"
              ["mx1"; "mx2"] start
  = (inr (mk_result "user@example.com" "invalid"
                    "Mailbox rejected: 5.1.1 user unknown"),
     after_quit (scripted one_mx rejecting true) "mx1"
       (snd (session (scripted one_mx rejecting true) CONFIG
                     "user@example.com" "mx1" start))).
Proof.
  destruct (proj1 (verify_smtp_first_terminal
                     (scripted one_mx rejecting true) CONFIG
                     "user@example.com")
                  [] "mx1" ["mx2"] start _ _ 550%Z "5.1.1 user unknown" _
                  (inconclusive_nil _ _ _ _ _) eq_refl)
    as (_ & Hinvalid & _).
  apply Hinvalid. cbn. auto.
Defined.

(** Every host unreachable: the probe ends [undeliverable], with the note of
    the last host. *)
Example verify_smtp_unreachable :
  fst (verify_smtp
         (scripted one_mx
                   (fun _ _ => inl (mk_exn OtherException "refused")) true)
         CONFIG "user@example.com" ["mx1"; "mx2"] start)
  = inr (mk_result "user@example.com" "undeliverable"
                   "Connection error with mx2: refused").
Proof. reflexivity. Qed.

(* ------------------------------------------------------------------ *)
(** ** Reasons *)

Section Reasons.

Context {World : Type}.
Variable env : Collaborators World.
Variable cfg : Config.

Lemma classify_rcpt_reason address code message :
  match classify_rcpt address code message with
  | inl final => reason final <> ""
  | inr note => note <> ""
  end.
Proof.
  unfold classify_rcpt.
  destruct (code =? 250)%Z; [cbn; discriminate|].
  destruct (in_codes code _); [cbn; discriminate|].
  destruct (in_codes code _); cbn; discriminate.
Qed.

Lemma error_note_nonempty mx e : error_note mx e <> "".
Proof. unfold error_note. destruct (exn_cls e); cbn; discriminate. Qed.

(** The loop of [verify_smtp] returns, and with a reason that is not empty
    as soon as one host was tried or the running reason was not empty. *)
Lemma verify_smtp_loop_reason address hosts :
  forall res st,
    hosts <> [] \/ reason res <> "" ->
    exists r st',
      verify_smtp_loop env cfg address hosts res st = (inr r, st')
      /\ reason r <> "".
Proof.
  induction hosts as [|mx hosts IH]; intros res st H.
  - destruct H as [H|H]; [congruence|]. cbn. unfold ret. eauto.
  - rewrite verify_smtp_loop_cons, probe_host_run.
    destruct (session env cfg address mx st) as [[e|[code message]] st1].
    + apply IH. right. cbn. apply error_note_nonempty.
    + cbn [fst snd].
      pose proof (classify_rcpt_reason address code message) as Hc.
      destruct (classify_rcpt address code message) as [final|note].
      * eauto.
      * apply IH. right. exact Hc.
Qed.

End Reasons.

(* ------------------------------------------------------------------ *)
(** ** The per-address pipeline *)

Section Pipeline.

Context {World : Type}.
Variable env : Collaborators World.

Local Abbreviation M := (M World).

Lemma get_mx_records_run domain st :
  get_mx_records env domain st
  = match dns_resolve env domain (world st) with
    | (inr answers, w) =>
        (inr (mx_hostnames answers),
         mk_state w (trace st ++ [EvResolve domain]))
    | (inl e, w) =>
        (inr [],
         mk_state w
           (trace st ++ EvResolve domain ::
              match exn_cls e with
              | NXDOMAIN | NoAnswer => []
              | _ => [EvLogError ("MX lookup failed for " ++ domain ++ ": "
                                  ++ exn_text e)]
              end))
    end.
Proof.
  unfold get_mx_records, try_except, bind, call, ret, emit.
  destruct (dns_resolve env domain (world st)) as [[e|answers] w]; cbn;
    [|reflexivity].
  destruct (exn_cls e); cbn; rewrite <- ?app_assoc; reflexivity.
Qed.

(** The upsert never raises; what it met is in the trace: the store calls
    it made, then the error line when one of them raised. *)
Lemma persist_run res st :
  exists calls w,
    persist env res st
    = (inr tt,
       mk_state w
         (trace st ++ calls ++
            match store_failure env res (world st) with
            | Some e => [persistence_error_line res e]
            | None => []
            end))
    /\ filter is_progress calls = [].
Proof.
  unfold persist, store_failure, persistence_error_line, try_except, bind,
    call, emit.
  destruct (table_get_item env (email res) (world st))
    as [[e|[item|]] w1]; cbn.
  - exists [EvGetItem (email res)], w1.
    rewrite <- app_assoc. auto.
  - destruct (table_update_item env _ _ _ w1) as [[e|[]] w2]; cbn;
      exists [EvGetItem (email res);
              EvUpdateItem (email res) (status res) (reason res)], w2;
      rewrite <- !app_assoc; cbn; auto.
  - destruct (table_put_item env res w1) as [[e|[]] w2]; cbn;
      exists [EvGetItem (email res); EvPutItem res], w2;
      rewrite <- !app_assoc; cbn; auto.
Qed.

Lemma persist_returns res st : fst (persist env res st) = inr tt.
Proof. destruct (persist_run res st) as (? & ? & -> & _). reflexivity. Qed.

(** [process_email], stage by stage. *)
Lemma process_email_run address st :
  let st0 := mk_state (world st) (trace st ++ [EvLogProcessing address]) in
  process_email env address st
  = if negb (validate_syntax address) then
      (inr (mk_result address "invalid" "Invalid syntax"), st0)
    else
      match rsplit_at address with
      | None =>
          (inl (mk_exn ValueError
                  "not enough values to unpack (expected 2, got 1)"), st0)
      | Some (local_part, domain) =>
          if in_strings (lower domain) DISPOSABLE_EMAIL_DOMAINS then
            (inr (mk_result address "invalid" "Disposable email"), st0)
          else if in_strings (lower local_part) ROLE_BASED_EMAILS then
            (inr (mk_result address "caution" "Role-based email"), st0)
          else
            let looked_up := get_mx_records env (lower domain) st0 in
            match fst looked_up with
            | inr mx_records =>
                (inr (mx_verdict address mx_records),
                 snd (persist env (mx_verdict address mx_records)
                              (snd looked_up)))
            | inl e => (inl e, snd looked_up)
            end
      end.
Proof.
  intros st0. unfold process_email, bind at 1, emit. fold st0.
  destruct (validate_syntax address); cbn [negb]; [|reflexivity].
  destruct (rsplit_at address) as [[local_part domain]|]; [|reflexivity].
  destruct (in_strings (lower domain) DISPOSABLE_EMAIL_DOMAINS);
    [reflexivity|].
  destruct (in_strings (lower local_part) ROLE_BASED_EMAILS); [reflexivity|].
  unfold bind.
  destruct (get_mx_records env (lower domain) st0) as [[e|mx_records] st1];
    cbn [fst snd]; [reflexivity|].
  change (match mx_records with
          | [] => mk_result address "invalid" "No MX records found"
          | _ :: _ => mk_result address "valid" "MX records found"
          end) with (mx_verdict address mx_records).
  pose proof (persist_returns (mx_verdict address mx_records) st1) as Hp.
  destruct (persist env (mx_verdict address mx_records) st1) as [[e|[]] st2];
    cbn in Hp; [discriminate|]. reflexivity.
Qed.

(** [process_email] returns a result for its address, and its only progress
    line is the one that opens it. *)
Lemma process_email_returns address st :
  exists r st',
    process_email env address st = (inr r, st')
    /\ email r = address
    /\ (status r = "valid" \/ status r = "invalid" \/ status r = "caution")
    /\ reason r <> ""
    /\ filter is_progress (trace st')
       = (filter is_progress (trace st) ++ [EvLogProcessing address])%list.
Proof.
  rewrite process_email_run. cbv zeta.
  set (st0 := mk_state (world st) (trace st ++ [EvLogProcessing address])).
  assert (H0 : filter is_progress (trace st0)
               = (filter is_progress (trace st) ++ [EvLogProcessing address])%list).
  { subst st0. cbn [trace]. rewrite filter_app. reflexivity. }
  clearbody st0.
  destruct (validate_syntax address) eqn:Hsyn; cbn [negb].
  2: { do 2 eexists. repeat split; eauto; cbn; auto; discriminate. }
  destruct (validate_syntax_rsplit address Hsyn) as (l & d & ->).
  destruct (in_strings (lower d) DISPOSABLE_EMAIL_DOMAINS).
  { do 2 eexists. repeat split; eauto; cbn; auto; discriminate. }
  destruct (in_strings (lower l) ROLE_BASED_EMAILS).
  { do 2 eexists. repeat split; eauto; cbn; auto; discriminate. }
  cbv zeta. rewrite get_mx_records_run.
  destruct (dns_resolve env (lower d) (world st0)) as [[e|answers] w];
    cbn [fst snd].
  - destruct (persist_run (mx_verdict address [])
               (mk_state w
                  (trace st0 ++ EvResolve (lower d) ::
                     match exn_cls e with
                     | NXDOMAIN | NoAnswer => []
                     | _ => [EvLogError ("MX lookup failed for " ++ lower d
                                         ++ ": " ++ exn_text e)]
                     end)))
      as (calls & w' & -> & Hcalls).
    do 2 eexists. repeat split; cbn; auto; try discriminate.
    rewrite !filter_app, Hcalls, H0.
    destruct (store_failure env _ _), (exn_cls e); cbn;
      rewrite ?app_nil_r; reflexivity.
  - destruct (persist_run (mx_verdict address (mx_hostnames answers))
               (mk_state w (trace st0 ++ [EvResolve (lower d)])))
      as (calls & w' & -> & Hcalls).
    do 2 eexists. split; [reflexivity|].
    destruct (mx_hostnames answers); cbn [mx_verdict email status reason];
      (repeat split; auto; try discriminate;
       cbn [snd trace]; rewrite !filter_app, Hcalls, H0;
       destruct (store_failure env _ _); cbn; rewrite ?app_nil_r; reflexivity).
Qed.

End Pipeline.

(** C9 (as amended): a result of [process_email] always carries a reason
    that is not empty, and so does a result of [verify_smtp] run on at least
    one candidate; when the candidates are exhausted the [undeliverable]
    result carries the note of the last host tried; run on no candidate at
    all, [verify_smtp] returns [undeliverable] with its default reason, the
    empty string. *)
Theorem reason_nonempty_once_attempted
        {World : Type} (env : Collaborators World) (cfg : Config)
        (address : string) (st : State World) :
  (exists r, fst (process_email env address st) = inr r /\ reason r <> "")
  /\ (forall mx rest,
         exists r, fst (verify_smtp env cfg address (mx :: rest) st) = inr r
                   /\ reason r <> "")
  /\ (forall pre mx res1 st1 note st2,
         inconclusive env cfg address pre
                      (mk_result address "undeliverable" "") st res1 st1 ->
         probe_host env cfg address mx st1 = (inr (inr note), st2) ->
         verify_smtp env cfg address (pre ++ [mx]) st
         = (inr (mk_result address "undeliverable" note), st2))
  /\ verify_smtp env cfg address [] st
     = (inr (mk_result address "undeliverable" ""), st).
Proof.
  split; [|split; [|split]].
  - destruct (process_email_returns env address st)
      as (r & st' & -> & _ & _ & Hr & _). cbn. eauto.
  - intros mx rest.
    destruct (verify_smtp_loop_reason env cfg address (mx :: rest)
                (mk_result address "undeliverable" "") st)
      as (r & st' & Hrun & Hr); [left; discriminate|].
    unfold verify_smtp. rewrite Hrun. cbn. eauto.
  - intros pre mx res1 st1 note st2 Hpre Hprobe. unfold verify_smtp.
    rewrite (verify_smtp_loop_skip env cfg address pre _ _ _ _ _ Hpre).
    rewrite verify_smtp_loop_cons, Hprobe. cbn.
    apply inconclusive_status in Hpre as [Hst Hem]. cbn in Hst, Hem.
    unfold ret, set_reason. rewrite Hst, Hem. reflexivity.
  - reflexivity.
Qed.

Lemma reason_nonempty_once_attempted_witness :
  verify_smtp
    (scripted one_mx (fun _ _ => inl (mk_exn OtherException "refused")) true)
    CONFIG "user@example.com" ([] ++ ["mx1"]) start
  = (inr (mk_result "user@example.com" "undeliverable"
                    "Connection error with mx1: refused"),
     mk_state [] [EvAcquire; EvConnect "mx1"; EvEhlo "mx1";
                  EvMail "mx1" "test@example.com";
                  EvRcpt "mx1" "user@example.com"; EvQuit "mx1"]).
Proof.
  apply (proj1 (proj2 (proj2
           (reason_nonempty_once_attempted
              (scripted one_mx
                        (fun _ _ => inl (mk_exn OtherException "refused"))
                        true)
              CONFIG "user@example.com" start)))
           [] "mx1" _ _ _ _ (inconclusive_nil _ _ _ _ _) eq_refl).
Defined.

(** C9 as first stated fails: run on an empty candidate list, [verify_smtp]
    returns the terminal status [undeliverable] with an empty reason. *)
Lemma verify_smtp_empty_reason :
  exists r,
    fst (verify_smtp (scripted one_mx rejecting true) CONFIG
                     "user@example.com" [] start) = inr r
    /\ status r = "undeliverable" /\ reason r = "".
Proof. eexists. repeat split. Qed.

(* ------------------------------------------------------------------ *)
(** ** Admission before connection *)

Lemma guarded_from_weaken tr :
  forall armed, guarded_from false tr = true -> guarded_from armed tr = true.
Proof.
  destruct tr as [|ev tr]; intros armed; [reflexivity|].
  destruct ev; cbn; auto. discriminate.
Qed.

Lemma guarded_from_app x :
  forall armed y,
    guarded_from armed x = true ->
    guarded_from false y = true ->
    guarded_from armed (x ++ y) = true.
Proof.
  induction x as [|ev x IH]; intros armed y Hx Hy; cbn.
  - apply guarded_from_weaken. assumption.
  - destruct ev; cbn in *; auto.
    apply andb_true_iff in Hx as [-> Hx]. cbn. auto.
Qed.

Section Admission.

Context {World : Type}.
Variable env : Collaborators World.
Variable cfg : Config.

(** One host attempt, session and [quit], keeps connections guarded. *)
Lemma attempt_guarded address mx st :
  exists suffix,
    trace (after_quit env mx (snd (session env cfg address mx st)))
    = (trace st ++ suffix)%list
    /\ connects_guarded suffix = true.
Proof.
  destruct (session_trace env cfg address mx st) as (tail & Htr & Htail).
  exists (EvAcquire :: EvConnect mx :: tail ++ [EvQuit mx])%list. split.
  - unfold after_quit. cbn [trace]. rewrite Htr, <- app_assoc. reflexivity.
  - destruct Htail as [-> | [-> | [-> | ->]]]; reflexivity.
Qed.

Lemma verify_smtp_loop_guarded address hosts :
  forall res st,
    exists suffix,
      trace (snd (verify_smtp_loop env cfg address hosts res st))
      = (trace st ++ suffix)%list
      /\ connects_guarded suffix = true.
Proof.
  induction hosts as [|mx hosts IH]; intros res st.
  - exists []. cbn. rewrite app_nil_r. auto.
  - rewrite verify_smtp_loop_cons, probe_host_run.
    destruct (attempt_guarded address mx st) as (s1 & Htr1 & Hg1).
    destruct (session env cfg address mx st) as [[e|reply] st1];
      cbn [fst snd] in *.
    + destruct (IH (set_reason res (error_note mx e))
                   (after_quit env mx st1)) as (s2 & Htr2 & Hg2).
      exists (s1 ++ s2)%list. rewrite Htr2, Htr1, app_assoc.
      split; [reflexivity | apply guarded_from_app; assumption].
    + destruct (classify_rcpt address (fst reply) (snd reply))
        as [final|note].
      * exists s1. cbn [snd]. auto.
      * destruct (IH (set_reason res note) (after_quit env mx st1))
          as (s2 & Htr2 & Hg2).
        exists (s1 ++ s2)%list. rewrite Htr2, Htr1, app_assoc.
        split; [reflexivity | apply guarded_from_app; assumption].
Qed.

Lemma is_catch_all_loop_guarded test_email hosts :
  forall st,
    exists suffix,
      trace (snd (is_catch_all_loop env cfg test_email hosts st))
      = (trace st ++ suffix)%list
      /\ connects_guarded suffix = true.
Proof.
  induction hosts as [|mx hosts IH]; intros st.
  - exists []. cbn. rewrite app_nil_r. auto.
  - cbn [is_catch_all_loop]. unfold bind. rewrite catch_all_host_run.
    destruct (attempt_guarded test_email mx st) as (s1 & Htr1 & Hg1).
    destruct (session env cfg test_email mx st) as [[e|reply] st1];
      cbn [fst snd] in *.
    + destruct (IH (after_quit env mx st1)) as (s2 & Htr2 & Hg2).
      exists (s1 ++ s2)%list. rewrite Htr2, Htr1, app_assoc.
      split; [reflexivity | apply guarded_from_app; assumption].
    + destruct (fst reply =? 250)%Z.
      * exists s1. cbn [snd]. auto.
      * destruct (IH (after_quit env mx st1)) as (s2 & Htr2 & Hg2).
        exists (s1 ++ s2)%list. rewrite Htr2, Htr1, app_assoc.
        split; [reflexivity | apply guarded_from_app; assumption].
Qed.

End Admission.

(** C8: in the events that [verify_smtp] and [is_catch_all] add to the
    trace, every connection to a mail host comes right after an admission by
    the rate limiter; both go through [smtp_client], which acquires before
    it connects. *)
Theorem connections_pass_the_limiter
        {World : Type} (env : Collaborators World) (cfg : Config)
        (st : State World) (mx_records : list string) :
  (forall address,
      exists suffix,
        trace (snd (verify_smtp env cfg address mx_records st))
        = (trace st ++ suffix)%list
        /\ connects_guarded suffix = true)
  /\ (forall domain,
         exists suffix,
           trace (snd (is_catch_all env cfg domain mx_records st))
           = (trace st ++ suffix)%list
           /\ connects_guarded suffix = true).
Proof.
  split.
  - intros address. apply verify_smtp_loop_guarded.
  - intros domain. unfold is_catch_all, bind, call_total.
    destruct (urandom_hex env (world st)) as [hex w].
    destruct (is_catch_all_loop_guarded env cfg
                ("fakeuser" ++ hex ++ "@" ++ domain) mx_records
                (mk_state w (trace st ++ [EvUrandom])))
      as (s & Htr & Hg).
    exists (EvUrandom :: s). rewrite Htr. cbn [trace].
    rewrite <- app_assoc. auto.
Qed.

(** [check_smtp_connection], which nothing calls, is the one place that
    reaches port 25 without an admission; it is no part of the probe. *)
Example check_smtp_connection_unguarded :
  trace (snd (check_smtp_connection (scripted one_mx rejecting true)
                                    "mx1" start))
  = [EvSocket "mx1"].
Proof. reflexivity. Qed.

(* ------------------------------------------------------------------ *)
(** ** Stages of the pipeline *)

(** C5: [process_email] checks syntax, then the disposable domains, then
    the role accounts, then looks up MX, and returns at the first stage that
    matches.  An address that fails the syntax check gets [invalid] with
    reason "Invalid syntax"; a disposable domain gets [invalid] with reason
    "Disposable email", whatever the local part and whatever the resolver
    would answer; a role account on another domain gets [caution] with reason
    "Role-based email".  In these three cases the run ends in the state it
    started from plus its opening log line: no collaborator was called, so
    nothing reached the network.  Only past them is the domain resolved. *)
Theorem pipeline_short_circuits
        {World : Type} (env : Collaborators World)
        (address : string) (st : State World) :
  let st0 := mk_state (world st) (trace st ++ [EvLogProcessing address]) in
  (validate_syntax address = false ->
   process_email env address st
   = (inr (mk_result address "invalid" "Invalid syntax"), st0))
  /\ (forall local_part domain,
         validate_syntax address = true ->
         rsplit_at address = Some (local_part, domain) ->
         (in_strings (lower domain) DISPOSABLE_EMAIL_DOMAINS = true ->
          process_email env address st
          = (inr (mk_result address "invalid" "Disposable email"), st0))
         /\ (in_strings (lower domain) DISPOSABLE_EMAIL_DOMAINS = false ->
             in_strings (lower local_part) ROLE_BASED_EMAILS = true ->
             process_email env address st
             = (inr (mk_result address "caution" "Role-based email"), st0))
         /\ (in_strings (lower domain) DISPOSABLE_EMAIL_DOMAINS = false ->
             in_strings (lower local_part) ROLE_BASED_EMAILS = false ->
             exists later,
               trace (snd (process_email env address st))
               = (trace st0 ++ EvResolve (lower domain) :: later)%list)).
Proof.
  intros st0. split.
  - intros Hsyn. rewrite process_email_run, Hsyn. reflexivity.
  - intros local_part domain Hsyn Hsplit.
    rewrite process_email_run, Hsyn, Hsplit. cbn [negb]. fold st0.
    split; [|split].
    + intros ->. reflexivity.
    + intros -> ->. reflexivity.
    + intros -> ->. cbv zeta. rewrite get_mx_records_run.
      clearbody st0.
      destruct (dns_resolve env (lower domain) (world st0))
        as [[e|answers] w]; cbn [fst snd].
      * match goal with
        | |- context [persist env ?r ?s] =>
            destruct (persist_run env r s) as (calls & w' & -> & _)
        end.
        cbn [snd trace]. rewrite <- app_assoc. cbn [app]. eauto.
      * match goal with
        | |- context [persist env ?r ?s] =>
            destruct (persist_run env r s) as (calls & w' & -> & _)
        end.
        cbn [snd trace]. rewrite <- app_assoc. cbn [app]. eauto.
Qed.

Lemma pipeline_short_circuits_witness :
  process_email (scripted one_mx rejecting true) "admin@mailinator.com" start
  = (inr (mk_result "admin@mailinator.com" "invalid" "Disposable email"),
     mk_state [] [EvLogProcessing "admin@mailinator.com"]).
Proof.
  apply (proj1 (proj2 (pipeline_short_circuits
                         (scripted one_mx rejecting true)
                         "admin@mailinator.com" start)
                      "admin" "mailinator.com" eq_refl eq_refl)).
  reflexivity.
Defined.

(** C7: the upsert that follows the verification never raises; when
    [get_item], [update_item] or [put_item] raises, the trace ends with the
    error line for it.  [process_email] returns a result in every case, and
    the result does not depend on the store: two sets of collaborators with
    the same resolver give the same result, whatever their tables do. *)
Theorem persistence_failure_keeps_result
        {World : Type} (env : Collaborators World)
        (address : string) (st : State World) :
  (forall res st1,
      fst (persist env res st1) = inr tt
      /\ forall e,
          store_failure env res (world st1) = Some e ->
          exists calls,
            trace (snd (persist env res st1))
            = (trace st1 ++ calls ++ [persistence_error_line res e])%list)
  /\ (exists r, fst (process_email env address st) = inr r)
  /\ (forall env' : Collaborators World,
         (forall domain w,
             dns_resolve env' domain w = dns_resolve env domain w) ->
         fst (process_email env' address st)
         = fst (process_email env address st)).
Proof.
  split; [|split].
  - intros res st1. split; [apply persist_returns|].
    intros e He. destruct (persist_run env res st1) as (calls & w & -> & _).
    rewrite He. cbn [snd trace]. eauto.
  - destruct (process_email_returns env address st) as (r & st' & -> & _).
    cbn. eauto.
  - intros env' Hdns. rewrite !process_email_run. cbv zeta.
    destruct (negb (validate_syntax address)); [reflexivity|].
    destruct (rsplit_at address) as [[local_part domain]|]; [|reflexivity].
    destruct (in_strings (lower domain) DISPOSABLE_EMAIL_DOMAINS);
      [reflexivity|].
    destruct (in_strings (lower local_part) ROLE_BASED_EMAILS);
      [reflexivity|].
    rewrite !get_mx_records_run, Hdns.
    destruct (dns_resolve env (lower domain) _) as [[e|answers] w];
      reflexivity.
Qed.

Lemma persistence_failure_keeps_result_witness :
  fst (process_email (scripted one_mx rejecting false)
                     "user@example.com" start)
  = fst (process_email (scripted one_mx rejecting true)
                       "user@example.com" start).
Proof.
  apply (proj2 (proj2 (persistence_failure_keeps_result
                         (scripted one_mx rejecting true)
                         "user@example.com" start))
               (scripted one_mx rejecting false)).
  intros domain w. reflexivity.
Defined.

(** The table down: the result is the one computed, the failure is logged. *)
Example process_email_store_down :
  process_email (scripted one_mx rejecting false) "user@example.com" start
  = (inr (mk_result "user@example.com" "valid" "MX records found"),
     mk_state []
       [EvLogProcessing "user@example.com"; EvResolve "example.com";
        EvGetItem "user@example.com";
        EvLogError "DynamoDB operation failed for user@example.com: table unavailable"]).
Proof. reflexivity. Qed.

(** C10: [process_email] returns for every address, and the status of what
    it returns is "valid", "invalid" or "caution"; it is never "retry_later"
    nor "undeliverable". *)
Theorem process_email_statuses
        {World : Type} (env : Collaborators World)
        (address : string) (st : State World) :
  exists r,
    fst (process_email env address st) = inr r
    /\ (status r = "valid" \/ status r = "invalid" \/ status r = "caution")
    /\ status r <> "retry_later" /\ status r <> "undeliverable".
Proof.
  destruct (process_email_returns env address st)
    as (r & st' & -> & _ & Hs & _).
  exists r. split; [reflexivity|]. split; [exact Hs|].
  destruct Hs as [-> | [-> | ->]]; split; discriminate.
Qed.

(** C1, on the code: with one MX host that rejects the recipient with 550,
    [process_email] reports [valid] on the strength of the MX list alone and
    sends nothing to the host, while [verify_smtp] on the same candidates
    classifies the address as [invalid]. *)
Theorem process_email_skips_probe :
  let env := scripted one_mx rejecting true in
  fst (process_email env "user@example.com" start)
  = inr (mk_result "user@example.com" "valid" "MX records found")
  /\ existsb is_smtp
       (trace (snd (process_email env "user@example.com" start))) = false
  /\ fst (get_mx_records env "example.com" start) = inr ["mx1.example.com"]
  /\ fst (verify_smtp env CONFIG "user@example.com" ["mx1.example.com"] start)
     = inr (mk_result "user@example.com" "invalid"
                      "Mailbox rejected: 5.1.1 user unknown").
Proof. repeat split. Qed.

(* ------------------------------------------------------------------ *)
(** ** The batch runner *)

Lemma ceil_div_zero b : (1 <= b)%nat -> ceil_div 0 b = 0%nat.
Proof. intros Hb. unfold ceil_div. apply Nat.div_small. lia. Qed.

Lemma ceil_div_step n b :
  (1 <= b)%nat -> (0 < n)%nat -> ceil_div n b = S (ceil_div (n - b) b).
Proof.
  intros Hb Hn. unfold ceil_div.
  destruct (le_lt_dec b n) as [Hle|Hlt].
  - replace (n + b - 1)%nat with ((n - b + b - 1) + 1 * b)%nat by lia.
    rewrite Nat.div_add by lia. lia.
  - replace (n - b)%nat with 0%nat by lia.
    rewrite (Nat.div_small (0 + b - 1) b) by lia.
    symmetry. apply (Nat.div_unique _ _ 1%nat (n - 1)%nat); lia.
Qed.

(** [range(i, stop, step)] holds the first [ceil((stop - i) / step)]
    multiples of [step] above [i]. *)
Lemma range_from_seq fuel :
  forall i stop step,
    (1 <= step)%nat -> (stop - i <= fuel)%nat ->
    range_from fuel i stop step
    = map (fun k => i + k * step)%nat (seq 0 (ceil_div (stop - i) step)).
Proof.
  induction fuel as [|fuel IH]; intros i stop step Hstep Hfuel;
    cbn [range_from].
  - replace (stop - i)%nat with 0%nat by lia.
    rewrite ceil_div_zero by assumption. reflexivity.
  - destruct (i <? stop)%nat eqn:E.
    + apply Nat.ltb_lt in E.
      rewrite (ceil_div_step (stop - i) step) by lia.
      cbn [seq map]. rewrite Nat.mul_0_l, Nat.add_0_r. f_equal.
      rewrite IH by lia. rewrite <- seq_shift, map_map.
      replace (stop - i - step)%nat with (stop - (i + step))%nat by lia.
      apply map_ext. intros k. cbn. lia.
    + apply Nat.ltb_ge in E.
      replace (stop - i)%nat with 0%nat by lia.
      rewrite ceil_div_zero by assumption. reflexivity.
Qed.

Lemma range_from_below fuel :
  forall i stop step,
    Forall (fun j => (j < stop)%nat) (range_from fuel i stop step).
Proof.
  induction fuel as [|fuel IH]; intros i stop step; cbn [range_from];
    [constructor|].
  destruct (i <? stop)%nat eqn:E; [|constructor].
  apply Nat.ltb_lt in E. constructor; auto.
Qed.

Lemma slice_length {A} i j (xs : list A) :
  List.length (slice i j xs) = Nat.min (j - i) (List.length xs - i).
Proof. unfold slice. rewrite length_firstn, length_skipn. reflexivity. Qed.

(** The slices taken at the values of the range, put end to end, are the
    list from the first value on. *)
Lemma range_from_slices {A} (xs : list A) step fuel :
  forall i,
    (1 <= step)%nat -> (List.length xs - i <= fuel)%nat ->
    List.concat (map (fun j => slice j (j + step) xs)
                (range_from fuel i (List.length xs) step))
    = skipn i xs.
Proof.
  induction fuel as [|fuel IH]; intros i Hstep Hfuel;
    cbn [range_from map List.concat].
  - symmetry. apply skipn_all2. lia.
  - destruct (i <? List.length xs)%nat eqn:E.
    + cbn [map List.concat]. rewrite IH by lia. unfold slice.
      replace (i + step - i)%nat with step by lia.
      rewrite Nat.add_comm, <- skipn_skipn. apply firstn_skipn.
    + apply Nat.ltb_ge in E. symmetry. apply skipn_all2. assumption.
Qed.

Lemma ceil_div_least n b :
  (1 <= b)%nat ->
  (n <= ceil_div n b * b)%nat
  /\ forall m, (n <= m * b)%nat -> (ceil_div n b <= m)%nat.
Proof.
  intros Hb. unfold ceil_div. split.
  - pose proof (Nat.div_mod_eq (n + b - 1) b) as Hdm.
    pose proof (Nat.mod_upper_bound (n + b - 1) b) as Hr. nia.
  - intros m Hm. apply Nat.lt_succ_r.
    apply Nat.Div0.div_lt_upper_bound. nia.
Qed.

Section Batches.

Context {World : Type}.
Variable env : Collaborators World.
Variable cfg : Config.

(** A gathered batch returns one result per address, in the order of the
    addresses. *)
Lemma gather_process_email batch :
  forall st,
    exists rs st',
      gather (map (process_email env) batch) st = (inr rs, st')
      /\ map email rs = batch
      /\ filter is_progress (trace st')
         = (filter is_progress (trace st) ++ map EvLogProcessing batch)%list.
Proof.
  induction batch as [|a batch IH]; intros st; cbn [map gather].
  - exists [], st. unfold ret. rewrite app_nil_r. auto.
  - unfold bind at 1.
    destruct (process_email_returns env a st)
      as (r & st1 & -> & Hr & _ & _ & Htr1).
    unfold bind at 1.
    destruct (IH st1) as (rs & st2 & -> & Hrs & Htr2).
    exists (r :: rs), st2. unfold ret. cbn [map].
    rewrite Hr, Hrs, Htr2, Htr1, <- app_assoc. auto.
Qed.

Lemma process_batches_run emails ks :
  let B := Z.to_nat (batch_size cfg) in
  (1 <= B)%nat ->
  forall acc st,
    exists rs st',
      process_batches env cfg emails (map (fun k => k * B)%nat ks) acc st
      = (inr (acc ++ rs)%list, st')
      /\ map email rs = List.concat (map (chunk B emails) ks)
      /\ filter is_progress (trace st')
         = (filter is_progress (trace st)
            ++ List.concat (map (chunk_progress B emails) ks))%list.
Proof.
  intros B HB. induction ks as [|k ks IH]; intros acc st;
    cbn [map process_batches List.concat].
  - exists [], st. unfold ret. rewrite !app_nil_r. auto.
  - fold B. change (slice (k * B) (k * B + B) emails) with (chunk B emails k).
    unfold bind at 1.
    destruct (gather_process_email (chunk B emails k) st)
      as (rs1 & st1 & -> & Hrs1 & Htr1).
    unfold bind at 1, emit at 1.
    match goal with
    | |- context [process_batches env cfg emails _ ?acc' ?s] =>
        destruct (IH acc' s) as (rs2 & st2 & -> & Hrs2 & Htr2)
    end.
    exists (rs1 ++ rs2)%list, st2.
    rewrite <- app_assoc, map_app, Hrs1, Hrs2. split; [reflexivity|].
    split; [reflexivity|].
    rewrite Htr2. cbn [trace]. rewrite filter_app, Htr1. cbn [filter is_progress].
    rewrite Nat.div_mul by lia.
    unfold chunk_progress. rewrite <- !app_assoc. reflexivity.
Qed.

End Batches.

(** C6: with a batch size [B] above zero, [process_emails] cuts the [N]
    addresses into [ceil(N/B)] consecutive chunks, each of at least one and at
    most [B] addresses, which put end to end give back the input.  The
    chunks are run one after the other: in the trace, the opening lines of
    the addresses of chunk [k] come after the line that closes batch [k] and
    before the one that closes batch [k + 1].  The run returns [N] results,
    the result at each position being the one for the address at that
    position. *)
Theorem batches_cover_input_in_order
        {World : Type} (env : Collaborators World) (cfg : Config)
        (emails : list string) (st : State World) :
  (0 < batch_size cfg)%Z ->
  let B := Z.to_nat (batch_size cfg) in
  let N := List.length emails in
  let batches := seq 0 (ceil_div N B) in
  ((N <= ceil_div N B * B)%nat
   /\ forall m, (N <= m * B)%nat -> (ceil_div N B <= m)%nat)
  /\ List.length batches = ceil_div N B
  /\ List.concat (map (chunk B emails) batches) = emails
  /\ Forall (fun k => (1 <= List.length (chunk B emails k) <= B)%nat) batches
  /\ exists results st',
      process_emails env cfg emails st = (inr results, st')
      /\ List.length results = N
      /\ map email results = emails
      /\ filter is_progress (trace st')
         = (filter is_progress (trace st)
            ++ List.concat (map (chunk_progress B emails) batches))%list.
Proof.
  intros HB B N batches.
  assert (HB1 : (1 <= B)%nat) by (subst B; lia).
  assert (Hstarts : range_from N 0 N B = map (fun k => k * B)%nat batches).
  { rewrite range_from_seq by lia. subst batches.
    rewrite Nat.sub_0_r. apply map_ext. intros k. lia. }
  assert (Hcat : List.concat (map (chunk B emails) batches) = emails).
  { pose proof (range_from_slices emails B N 0 HB1) as H.
    fold N in H. rewrite Hstarts, map_map in H. unfold chunk.
    rewrite H by lia. reflexivity. }
  split; [apply ceil_div_least; assumption|].
  split; [apply length_seq|].
  split; [exact Hcat|].
  split.
  - pose proof (range_from_below N 0 N B) as Hlt.
    rewrite Hstarts in Hlt. rewrite Forall_map in Hlt.
    eapply Forall_impl; [|exact Hlt]. cbn beta.
    intros k Hk. unfold chunk. rewrite slice_length. fold N. lia.
  - unfold process_emails, py_range. fold N.
    destruct (batch_size cfg =? 0)%Z eqn:E0; [lia|].
    destruct (batch_size cfg <? 0)%Z eqn:E1; [lia|].
    fold B. rewrite Hstarts.
    destruct (process_batches_run env cfg emails batches HB1 [] st)
      as (rs & st' & Hrun & Hrs & Htr).
    fold B in Hrun, Hrs, Htr. cbn [app] in Hrun.
    exists rs, st'. rewrite Hrun, Htr, Hrs, Hcat.
    repeat split.
    apply (f_equal (@List.length string)) in Hrs.
    rewrite length_map, Hcat in Hrs. exact Hrs.
Qed.

Lemma batches_cover_input_in_order_witness :
  exists results st',
    process_emails (scripted one_mx rejecting true)
                   {| sender_email := "test@example.com"; batch_size := 2 |}
                   ["a@b.c"; "admin@b.c"; "zz"] start
    = (inr results, st')
    /\ List.length results = 3%nat
    /\ map email results = ["a@b.c"; "admin@b.c"; "zz"]
    /\ filter is_progress (trace st')
       = [EvLogProcessing "a@b.c"; EvLogProcessing "admin@b.c";
          EvLogBatch 1 2; EvLogProcessing "zz"; EvLogBatch 2 1].
Proof.
  destruct (batches_cover_input_in_order
              (scripted one_mx rejecting true)
              {| sender_email := "test@example.com"; batch_size := 2 |}
              ["a@b.c"; "admin@b.c"; "zz"] start)
    as (_ & _ & _ & _ & H).
  - reflexivity.
  - exact H.
Defined.

(* ================================================================== *)
(** * Further properties *)

(* ------------------------------------------------------------------ *)
(** ** Rate limiter: bursts, waits, refills *)

Module RateLimiterBursts.

Import RateLimiter RateLimiterFacts.
Local Open Scope Q_scope.



End RateLimiterBursts.

Module RateLimiterExact.

Import RateLimiter RateLimiterFacts.
Local Open Scope Q_scope.


Lemma py_min_cap a b : a <= b -> py_min a b == a.
Proof.
  intros H. unfold py_min. destruct (Qle_bool a b) eqn:E; [reflexivity|].
  apply Qle_bool_iff in H. congruence.
Qed.




Lemma acquire_loop_no_room clock :
  forall s, tokens s <= inject_Z (capacity s) -> (capacity s <= 0)%Z ->
    acquire_loop clock s = None.
Proof.
  induction clock as [|now clock IH]; intros s Ht Hc; cbn [acquire_loop];
    assert (Hb : Qle_bool 1 (tokens s) = false)
      by (destruct (Qle_bool 1 (tokens s)) eqn:E; [|reflexivity];
          apply Qle_bool_iff in E; rewrite Zle_Qle in Hc;
          change (inject_Z 0) with 0 in Hc; lra);
    rewrite Hb; [reflexivity|].
  apply IH; [apply py_min_le_l | assumption].
Qed.

End RateLimiterExact.







(** A limiter whose capacity is zero or less never admits anyone: however
    long the caller waits, [acquire] does not return. *)
Theorem acquire_never_returns_without_room
        (clock : list Q) (s : RateLimiter.t) :
  (RateLimiter.capacity s <= 0)%Z -> RateLimiter.acquire clock s = None.
Proof.
  intros Hc. destruct clock as [|now clock]; [reflexivity|].
  cbn [RateLimiter.acquire].
  apply RateLimiterExact.acquire_loop_no_room;
    [apply RateLimiterFacts.py_min_le_l | exact Hc].
Qed.

Lemma acquire_never_returns_without_room_witness :
  RateLimiter.acquire [1; 2; 3; 1000]%Q (RateLimiter.init 10 0 0) = None.
Proof.
  apply (acquire_never_returns_without_room [1; 2; 3; 1000]%Q
           (RateLimiter.init 10 0 0)).
  cbn. lia.
Defined.



(* ------------------------------------------------------------------ *)
(** ** Addresses: the cut at the [@], letter case, a trailing newline *)

Ltac each_ascii c :=
  destruct c as [[] [] [] [] [] [] [] []]; reflexivity.

Lemma local_char_lower c : local_char (lower_char c) = local_char c.
Proof. each_ascii c. Qed.

Lemma label_char_lower c : label_char (lower_char c) = label_char c.
Proof. each_ascii c. Qed.

Lemma tail_char_lower c : tail_char (lower_char c) = tail_char c.
Proof. each_ascii c. Qed.

Lemma lower_char_at c : Ascii.eqb (lower_char c) "@" = Ascii.eqb c "@".
Proof. each_ascii c. Qed.

Lemma lower_char_dot c : Ascii.eqb (lower_char c) "." = Ascii.eqb c ".".
Proof. each_ascii c. Qed.

Lemma lower_char_newline c :
  Ascii.eqb (lower_char c) newline = Ascii.eqb c newline.
Proof. each_ascii c. Qed.

Lemma lower_char_idem c : lower_char (lower_char c) = lower_char c.
Proof. each_ascii c. Qed.

Lemma lower_idem s : lower (lower s) = lower s.
Proof.
  induction s as [|c s IH]; cbn; [reflexivity|].
  rewrite lower_char_idem, IH. reflexivity.
Qed.

Lemma lower_append s t : lower (s ++ t) = lower s ++ lower t.
Proof. induction s as [|c s IH]; cbn; [reflexivity | rewrite IH; reflexivity]. Qed.

Lemma span_lower (p : ascii -> bool) :
  (forall c, p (lower_char c) = p c) ->
  forall s, span p (lower s)
            = (lower (fst (span p s)), lower (snd (span p s))).
Proof.
  intros Hp. induction s as [|c s IH]; cbn; [reflexivity|].
  rewrite Hp. destruct (p c); [|reflexivity].
  rewrite IH. destruct (span p s) as [a b]. reflexivity.
Qed.

Lemma nonempty_lower s : nonempty (lower s) = nonempty s.
Proof. destruct s; reflexivity. Qed.

Lemma at_dollar_lower s : at_dollar (lower s) = at_dollar s.
Proof.
  destruct s as [|c [|d s]]; cbn; try reflexivity. apply lower_char_newline.
Qed.

(** The syntax check does not look at the case of letters. *)
Lemma validate_syntax_lower address :
  validate_syntax (lower address) = validate_syntax address.
Proof.
  unfold validate_syntax, EMAIL_REGEX_match.
  rewrite (span_lower local_char local_char_lower).
  destruct (span local_char address) as [loc r1]. cbn [fst snd].
  destruct r1 as [|c1 r2]; [reflexivity|]. cbn [lower].
  rewrite (span_lower label_char label_char_lower).
  destruct (span label_char r2) as [lab r3]. cbn [fst snd].
  destruct r3 as [|c2 r4]; [reflexivity|]. cbn [lower].
  rewrite (span_lower tail_char tail_char_lower).
  destruct (span tail_char r4) as [tl r5]. cbn [fst snd].
  rewrite lower_char_at, lower_char_dot, !nonempty_lower, at_dollar_lower.
  reflexivity.
Qed.

Lemma rsplit_at_lower address :
  rsplit_at (lower address)
  = match rsplit_at address with
    | Some (l, d) => Some (lower l, lower d)
    | None => None
    end.
Proof.
  induction address as [|c s IH]; cbn; [reflexivity|].
  rewrite IH. destruct (rsplit_at s) as [[l d]|]; [reflexivity|].
  rewrite lower_char_at. destruct (Ascii.eqb c "@"); reflexivity.
Qed.

Lemma rsplit_at_none s : no_at s -> rsplit_at s = None.
Proof.
  unfold no_at, all_chars. induction s as [|c s IH]; cbn; intros H;
    [reflexivity|].
  inversion H as [|? ? Hc Hs]; subst. rewrite IH by assumption.
  destruct (Ascii.eqb c "@"); [discriminate | reflexivity].
Qed.

Lemma rsplit_at_cut l :
  forall d, no_at d -> rsplit_at (l ++ String "@" d) = Some (l, d).
Proof.
  induction l as [|c l IH]; intros d Hd; cbn.
  - rewrite rsplit_at_none by assumption. reflexivity.
  - rewrite IH by assumption. reflexivity.
Qed.

Lemma all_chars_append p s t :
  all_chars p s -> all_chars p t -> all_chars p (s ++ t).
Proof.
  unfold all_chars. induction s as [|c s IH]; cbn; intros Hs Ht;
    [assumption|].
  inversion Hs; subst. constructor; auto.
Qed.

Lemma all_chars_impl (p q : ascii -> bool) s :
  (forall c, p c = true -> q c = true) -> all_chars p s -> all_chars q s.
Proof. unfold all_chars. intros H. apply Forall_impl. exact H. Qed.

Lemma class_no_at (p : ascii -> bool) :
  p "@"%char = false ->
  forall c, p c = true -> negb (Ascii.eqb c "@") = true.
Proof.
  intros Hp c Hc. destruct (Ascii.eqb c "@") eqn:E; [|reflexivity].
  apply Ascii.eqb_eq in E. subst. congruence.
Qed.

(** The domain side of an accepted address holds no [@]. *)
Lemma domain_no_at lab tl rest :
  all_chars label_char lab -> all_chars tail_char tl ->
  rest = "" \/ rest = String newline "" ->
  no_at (lab ++ String "." (tl ++ rest)).
Proof.
  intros Hlab Htl Hrest. unfold no_at.
  apply all_chars_append.
  - eapply all_chars_impl; [apply (class_no_at label_char); reflexivity|].
    assumption.
  - unfold all_chars. cbn. constructor; [reflexivity|].
    apply all_chars_append.
    + eapply all_chars_impl; [apply (class_no_at tail_char); reflexivity|].
      assumption.
    + destruct Hrest as [-> | ->]; repeat constructor.
Qed.

(** An accepted address has one [@] only: [rsplit] cuts it there, into a
    local part that is not empty and holds only the characters of its class,
    and a domain that is not empty and holds no [@]. *)
Theorem accepted_address_splits_at_its_only_at (address : string) :
  validate_syntax address = true ->
  exists local_part domain,
    rsplit_at address = Some (local_part, domain)
    /\ address = local_part ++ String "@" domain
    /\ local_part <> "" /\ all_chars local_char local_part
    /\ domain <> "" /\ no_at domain.
Proof.
  intros H. apply EMAIL_REGEX_match_language in H.
  destruct H as (loc & lab & tl & rest & -> & Hloc & Nloc & Hlab & Nlab
                 & Htl & Ntl & Hrest).
  pose proof (domain_no_at lab tl rest Hlab Htl Hrest) as Hd.
  exists loc, (lab ++ String "." (tl ++ rest)).
  rewrite rsplit_at_cut by assumption.
  repeat split; try assumption.
  destruct lab; [congruence | discriminate].
Qed.

Lemma accepted_address_splits_at_its_only_at_witness :
  exists local_part domain,
    rsplit_at "first.last+tag@mail.example.org" = Some (local_part, domain)
    /\ "first.last+tag@mail.example.org" = local_part ++ String "@" domain
    /\ local_part <> "" /\ all_chars local_char local_part
    /\ domain <> "" /\ no_at domain.
Proof.
  apply (accepted_address_splits_at_its_only_at
           "first.last+tag@mail.example.org").
  reflexivity.
Defined.

Section LetterCase.

Context {World : Type}.
Variable env : Collaborators World.

(** What [process_email] answers depends on the state through the world
    only, and on the address through its lower-cased form only. *)
Lemma process_email_lower address st :
  exists r r',
    fst (process_email env address st) = inr r
    /\ fst (process_email env (lower address) st) = inr r'
    /\ status r' = status r /\ reason r' = reason r.
Proof.
  destruct (process_email_returns env address st) as (r & st1 & Hr & _).
  destruct (process_email_returns env (lower address) st)
    as (r' & st1' & Hr' & _).
  exists r, r'. rewrite Hr, Hr'. split; [reflexivity|]. split; [reflexivity|].
  rewrite process_email_run in Hr. rewrite process_email_run in Hr'.
  cbv zeta in Hr, Hr'.
  rewrite validate_syntax_lower, rsplit_at_lower in Hr'.
  destruct (validate_syntax address); cbn [negb] in Hr, Hr'.
  2: { injection Hr as <- _. injection Hr' as <- _. auto. }
  destruct (rsplit_at address) as [[l d]|]; [|discriminate].
  rewrite !lower_idem in Hr'.
  destruct (in_strings (lower d) DISPOSABLE_EMAIL_DOMAINS).
  { injection Hr as <- _. injection Hr' as <- _. auto. }
  destruct (in_strings (lower l) ROLE_BASED_EMAILS).
  { injection Hr as <- _. injection Hr' as <- _. auto. }
  rewrite get_mx_records_run in Hr. rewrite get_mx_records_run in Hr'.
  cbn [world] in Hr, Hr'.
  destruct (dns_resolve env (lower d) (world st)) as [[e|answers] w];
    cbn [fst snd] in Hr, Hr';
    injection Hr as <- _; injection Hr' as <- _;
    [|destruct (mx_hostnames answers)]; auto.
Qed.

End LetterCase.

(** Verification does not depend on the case of the ASCII letters of the
    address: two addresses that become equal once [A-Z] is mapped to [a-z],
    every other character left as it is, get the same status and the same
    reason when verified from the same state. *)
Theorem verdict_ignores_letter_case
        {World : Type} (env : Collaborators World)
        (address address' : string) (st : State World) :
  lower address = lower address' ->
  exists r r',
    fst (process_email env address st) = inr r
    /\ fst (process_email env address' st) = inr r'
    /\ status r = status r' /\ reason r = reason r'.
Proof.
  intros Hlow.
  destruct (process_email_lower env address st)
    as (r & rl & Hr & Hrl & Hs & Hre).
  destruct (process_email_lower env address' st)
    as (r' & rl' & Hr' & Hrl' & Hs' & Hre').
  rewrite Hlow in Hrl. rewrite Hrl in Hrl'. injection Hrl' as <-.
  exists r, r'. repeat split; try assumption; congruence.
Qed.

Lemma verdict_ignores_letter_case_witness :
  exists r r',
    fst (process_email (scripted one_mx rejecting true)
                       "Admin@Example.COM" start) = inr r
    /\ fst (process_email (scripted one_mx rejecting true)
                          "aDMIN@example.com" start) = inr r'
    /\ status r = status r' /\ reason r = reason r'.
Proof.
  apply (verdict_ignores_letter_case (scripted one_mx rejecting true)
           "Admin@Example.COM" "aDMIN@example.com" start).
  reflexivity.
Defined.

Lemma append_newline_differs x :
  forall lit,
    ends_with_newline lit = false -> x ++ String newline "" <> lit.
Proof.
  induction x as [|c x IH]; intros lit Hlit E; cbn in E.
  - subst lit. discriminate.
  - destruct lit as [|c' lit]; [discriminate|].
    injection E as -> E.
    apply (IH lit); [|exact E].
    destruct lit as [|c'' lit]; [|exact Hlit].
    destruct x; discriminate.
Qed.

Lemma in_strings_newline x lits :
  forallb (fun lit => negb (ends_with_newline lit)) lits = true ->
  in_strings (x ++ String newline "") lits = false.
Proof.
  unfold in_strings.
  induction lits as [|lit lits IH]; cbn [existsb forallb]; [reflexivity|].
  intros H. apply andb_true_iff in H as [Hlit Hlits].
  rewrite IH by assumption.
  destruct (String.eqb_spec (x ++ String newline "") lit) as [E|_];
    [|reflexivity].
  apply append_newline_differs in E; [contradiction|].
  destruct (ends_with_newline lit); [discriminate | reflexivity].
Qed.

Lemma no_newline_rest s rest :
  no_newline (s ++ rest) -> rest = "" \/ rest = String newline "" ->
  rest = "".
Proof.
  intros Hall [->| ->]; [reflexivity|]. exfalso.
  unfold no_newline, all_chars in Hall.
  induction s as [|c s IH]; cbn in Hall; inversion Hall; subst; auto.
  discriminate.
Qed.

Lemma append_assoc_string (a b c : string) : (a ++ b) ++ c = a ++ (b ++ c).
Proof. induction a as [|x a IH]; cbn; [reflexivity | rewrite IH; reflexivity]. Qed.

(** Python's [$] lets one newline follow the address: whenever an address
    without newline passes the syntax check, so does the address followed by
    a newline.  The newline then stays on the domain, which no entry of the
    disposable list matches: whatever the domain, the answer for such an
    input is never "Disposable email". *)
Theorem trailing_newline_passes_and_escapes_the_denylist
        {World : Type} (env : Collaborators World)
        (address : string) (st : State World) :
  validate_syntax address = true ->
  no_newline address ->
  validate_syntax (address ++ String newline "") = true
  /\ exists r,
      fst (process_email env (address ++ String newline "") st) = inr r
      /\ reason r <> "Invalid syntax"
      /\ reason r <> "Disposable email".
Proof.
  intros Hsyn Hnl.
  apply EMAIL_REGEX_match_language in Hsyn.
  destruct Hsyn as (loc & lab & tl & rest & -> & Hloc & Nloc & Hlab & Nlab
                    & Htl & Ntl & Hrest).
  assert (rest = "") as ->.
  { apply (no_newline_rest (loc ++ String "@" (lab ++ String "." tl)) rest);
      [|assumption].
    rewrite append_assoc_string. cbn. rewrite append_assoc_string. cbn.
    exact Hnl. }
  rewrite append_empty_r.
  assert (Hshape : (loc ++ String "@" (lab ++ String "." tl))
                   ++ String newline ""
                   = loc ++ String "@"
                       (lab ++ String "." (tl ++ String newline ""))).
  { rewrite append_assoc_string. cbn. rewrite append_assoc_string.
    reflexivity. }
  rewrite Hshape.
  assert (Hsyn' : validate_syntax
                    (loc ++ String "@"
                       (lab ++ String "." (tl ++ String newline "")))
                  = true).
  { apply EMAIL_REGEX_match_language.
    exists loc, lab, tl, (String newline ""). repeat split; auto. }
  split; [exact Hsyn'|].
  destruct (process_email_returns env
              (loc ++ String "@" (lab ++ String "." (tl ++ String newline "")))
              st) as (r & st' & Hr & _).
  exists r. rewrite Hr. split; [reflexivity|].
  rewrite process_email_run in Hr. cbv zeta in Hr.
  rewrite Hsyn' in Hr. cbn [negb] in Hr.
  rewrite rsplit_at_cut in Hr
    by (apply domain_no_at; auto).
  assert (Hdom : lower (lab ++ String "." (tl ++ String newline ""))
                 = (lower lab ++ String "." (lower tl))
                     ++ String newline "").
  { rewrite lower_append. cbn [lower]. rewrite lower_append.
    rewrite append_assoc_string. cbn. reflexivity. }
  rewrite Hdom, in_strings_newline in Hr by reflexivity.
  destruct (in_strings (lower loc) ROLE_BASED_EMAILS).
  { injection Hr as <- _. cbn. split; discriminate. }
  rewrite get_mx_records_run in Hr.
  destruct (dns_resolve env _ _) as [[e|answers] w]; cbn [fst snd] in Hr;
    injection Hr as <- _;
    [|destruct (mx_hostnames answers)]; cbn; split; discriminate.
Qed.

Lemma trailing_newline_passes_and_escapes_the_denylist_witness :
  validate_syntax ("x@mailinator.com" ++ String newline "") = true
  /\ exists r,
      fst (process_email (scripted one_mx rejecting true)
                         ("x@mailinator.com" ++ String newline "") start)
      = inr r
      /\ reason r <> "Invalid syntax"
      /\ reason r <> "Disposable email".
Proof.
  apply (trailing_newline_passes_and_escapes_the_denylist
           (scripted one_mx rejecting true) "x@mailinator.com" start).
  - reflexivity.
  - unfold no_newline, all_chars. cbn. repeat constructor.
Defined.

(* ------------------------------------------------------------------ *)
(** ** MX host names *)

Lemma rstrip_dot_no_trailing_dot s : ends_with_dot (rstrip_dot s) = false.
Proof.
  induction s as [|c s IH]; cbn [rstrip_dot]; [reflexivity|].
  destruct (rstrip_dot s) as [|d t] eqn:E; cbn [nonempty negb].
  - rewrite andb_true_r. destruct (Ascii.eqb c ".") eqn:Ec; cbn; auto.
  - rewrite andb_false_r. exact IH.
Qed.

(** Only dots are removed, and only at the end. *)
Lemma rstrip_dot_only_dots s :
  exists dots,
    s = rstrip_dot s ++ dots /\ all_chars (fun c => Ascii.eqb c ".") dots.
Proof.
  induction s as [|c s (dots & Hs & Hdots)]; cbn [rstrip_dot].
  - exists "". split; [reflexivity | constructor].
  - destruct (rstrip_dot s) as [|d t] eqn:E; cbn [nonempty negb].
    + rewrite andb_true_r. destruct (Ascii.eqb c ".") eqn:Ec.
      * exists (String c dots). cbn in *. split; [congruence|].
        constructor; assumption.
      * exists dots. cbn in *. split; [congruence | assumption].
    + rewrite andb_false_r. exists dots. cbn in *. split; [congruence|].
      assumption.
Qed.

Lemma insert_by_preference_ties p r l :
  filter (fun x => (preference x =? p)%Z) (insert_by_preference r l)
  = filter (fun x => (preference x =? p)%Z) (r :: l).
Proof.
  induction l as [|x l IH]; cbn [insert_by_preference]; [reflexivity|].
  destruct (preference r <=? preference x)%Z eqn:E; [reflexivity|].
  apply Z.leb_gt in E. cbn [filter] in *. rewrite IH.
  destruct (preference r =? p)%Z eqn:Er; [|reflexivity].
  apply Z.eqb_eq in Er.
  assert (Hx : (preference x =? p)%Z = false) by (apply Z.eqb_neq; lia).
  rewrite Hx. reflexivity.
Qed.

Lemma sorted_by_preference_ties p answers :
  filter (fun x => (preference x =? p)%Z) (sorted_by_preference answers)
  = filter (fun x => (preference x =? p)%Z) answers.
Proof.
  induction answers as [|r l IH]; cbn [sorted_by_preference];
    [reflexivity|].
  rewrite insert_by_preference_ties. cbn [filter]. rewrite IH. reflexivity.
Qed.

(** [get_mx_records] gives one host name per answer of the resolver, none
    dropped and none merged; each is the answer's exchange with nothing but
    dots taken off its end, and none ends with a dot. *)
Theorem mx_hostnames_one_per_answer
        {World : Type} (env : Collaborators World)
        (domain : string) (st : State World) (answers : list mx_rdata) :
  fst (dns_resolve env domain (world st)) = inr answers ->
  exists hosts,
    fst (get_mx_records env domain st) = inr hosts
    /\ List.length hosts = List.length answers
    /\ Forall (fun h => ends_with_dot h = false) hosts
    /\ Forall (fun h =>
                 exists r dots,
                   In r answers /\ exchange r = h ++ dots
                   /\ all_chars (fun c => Ascii.eqb c ".") dots) hosts.
Proof.
  intros Hdns. rewrite get_mx_records_run.
  destruct (dns_resolve env domain (world st)) as [[e|a] w];
    cbn [fst] in *; [discriminate|].
  injection Hdns as ->. eexists. split; [reflexivity|].
  unfold mx_hostnames. split; [|split].
  - rewrite length_map. symmetry. apply Permutation_length.
    apply sorted_by_preference_perm.
  - apply Forall_map, Forall_forall. intros r _.
    apply rstrip_dot_no_trailing_dot.
  - apply Forall_map, Forall_forall. intros r Hr.
    destruct (rstrip_dot_only_dots (exchange r)) as (dots & Hs & Hd).
    exists r, dots. repeat split; try assumption.
    eapply Permutation_in; [|exact Hr].
    apply Permutation_sym, sorted_by_preference_perm.
Qed.

Lemma mx_hostnames_one_per_answer_witness :
  exists hosts,
    fst (get_mx_records (scripted one_mx rejecting true) "example.com" start)
    = inr hosts
    /\ List.length hosts
       = List.length [ {| preference := 10; exchange := "mx1.example.com." |} ]
    /\ Forall (fun h => ends_with_dot h = false) hosts
    /\ Forall (fun h =>
                 exists r dots,
                   In r [ {| preference := 10;
                             exchange := "mx1.example.com." |} ]
                   /\ exchange r = h ++ dots
                   /\ all_chars (fun c => Ascii.eqb c ".") dots) hosts.
Proof.
  apply (mx_hostnames_one_per_answer (scripted one_mx rejecting true)
           "example.com" start).
  reflexivity.
Defined.

(** Answers of equal preference keep the order the resolver gave them: for
    every preference, the hosts of that preference come out in the order
    they came in. *)
Theorem mx_ties_keep_resolver_order
        {World : Type} (env : Collaborators World)
        (domain : string) (st : State World) (answers : list mx_rdata) :
  fst (dns_resolve env domain (world st)) = inr answers ->
  exists ordered,
    fst (get_mx_records env domain st)
    = inr (map (fun r => rstrip_dot (exchange r)) ordered)
    /\ forall p,
        filter (fun r => (preference r =? p)%Z) ordered
        = filter (fun r => (preference r =? p)%Z) answers.
Proof.
  intros Hdns. rewrite get_mx_records_run.
  destruct (dns_resolve env domain (world st)) as [[e|a] w];
    cbn [fst] in *; [discriminate|].
  injection Hdns as ->. exists (sorted_by_preference answers).
  split; [reflexivity|]. intros p. apply sorted_by_preference_ties.
Qed.

Lemma mx_ties_keep_resolver_order_witness :
  exists ordered,
    fst (get_mx_records
           (scripted
              (fun _ => inr [ {| preference := 20; exchange := "b." |};
                              {| preference := 10; exchange := "a." |};
                              {| preference := 20; exchange := "c." |} ])
              rejecting true)
           "example.com" start)
    = inr (map (fun r => rstrip_dot (exchange r)) ordered)
    /\ forall p,
        filter (fun r => (preference r =? p)%Z) ordered
        = filter (fun r => (preference r =? p)%Z)
                 [ {| preference := 20; exchange := "b." |};
                   {| preference := 10; exchange := "a." |};
                   {| preference := 20; exchange := "c." |} ].
Proof.
  apply (mx_ties_keep_resolver_order
           (scripted
              (fun _ => inr [ {| preference := 20; exchange := "b." |};
                              {| preference := 10; exchange := "a." |};
                              {| preference := 20; exchange := "c." |} ])
              rejecting true)
           "example.com" start).
  reflexivity.
Defined.

(* ------------------------------------------------------------------ *)
(** ** The probe: what it tries, what it answers *)

Lemma connected_hosts_app a b :
  connected_hosts (a ++ b) = (connected_hosts a ++ connected_hosts b)%list.
Proof.
  induction a as [|ev a IH]; [reflexivity|].
  destruct ev; cbn; rewrite IH; reflexivity.
Qed.

Lemma quit_hosts_app a b :
  quit_hosts (a ++ b) = (quit_hosts a ++ quit_hosts b)%list.
Proof.
  induction a as [|ev a IH]; [reflexivity|].
  destruct ev; cbn; rewrite IH; reflexivity.
Qed.

Lemma recipients_app a b :
  recipients (a ++ b) = (recipients a ++ recipients b)%list.
Proof.
  induction a as [|ev a IH]; [reflexivity|].
  destruct ev; cbn; rewrite IH; reflexivity.
Qed.

Lemma admissions_app a b :
  admissions (a ++ b) = (admissions a + admissions b)%nat.
Proof.
  induction a as [|ev a IH]; [reflexivity|].
  destruct ev; cbn; rewrite IH; reflexivity.
Qed.

Lemma tried_none mx_records rcpt : tried mx_records rcpt 0 [].
Proof. unfold tried. cbn. repeat split; auto. lia. Qed.

Lemma tried_next mx rest rcpt k s1 s2 :
  tried [mx] rcpt 1 s1 -> tried rest rcpt k s2 ->
  tried (mx :: rest) rcpt (S k) (s1 ++ s2).
Proof.
  unfold tried. cbn [firstn List.length].
  intros (Hc1 & Hq1 & Ha1 & Hr1 & _) (Hc2 & Hq2 & Ha2 & Hr2 & Hk).
  rewrite connected_hosts_app, quit_hosts_app, admissions_app, recipients_app.
  rewrite Hc1, Hq1, Ha1, Hc2, Hq2, Ha2.
  repeat split; auto.
  - apply Forall_app. auto.
  - lia.
Qed.

Lemma tried_first mx rest rcpt s1 :
  tried [mx] rcpt 1 s1 -> tried (mx :: rest) rcpt 1 s1.
Proof.
  intros H. rewrite <- (app_nil_r s1).
  apply (tried_next mx rest rcpt 0 s1 []); [assumption | apply tried_none].
Qed.

Section ProbeTraces.

Context {World : Type}.
Variable env : Collaborators World.
Variable cfg : Config.

Lemma attempt_tried rcpt mx st :
  exists suffix,
    trace (after_quit env mx (snd (session env cfg rcpt mx st)))
    = (trace st ++ suffix)%list
    /\ tried [mx] rcpt 1 suffix.
Proof.
  destruct (session_trace env cfg rcpt mx st) as (tail & Htr & Htail).
  exists (EvAcquire :: EvConnect mx :: tail ++ [EvQuit mx])%list. split.
  - unfold after_quit. cbn [trace]. rewrite Htr, <- app_assoc. reflexivity.
  - unfold tried.
    destruct Htail as [-> | [-> | [-> | ->]]]; cbn;
      repeat split; auto.
Qed.

Lemma classify_rcpt_final address code message final :
  classify_rcpt address code message = inl final ->
  email final = address
  /\ (status final = "valid" \/ status final = "invalid"
      \/ status final = "retry_later").
Proof.
  unfold classify_rcpt.
  destruct (code =? 250)%Z; [intros [= <-]; cbn; auto|].
  destruct (in_codes code _); [intros [= <-]; cbn; auto|].
  destruct (in_codes code _); [intros [= <-]; cbn; auto | discriminate].
Qed.

Lemma verify_smtp_loop_tried address hosts :
  forall res st,
    exists r st' suffix k,
      verify_smtp_loop env cfg address hosts res st = (inr r, st')
      /\ trace st' = (trace st ++ suffix)%list
      /\ tried hosts address k suffix
      /\ ((k = List.length hosts /\ status r = status res
           /\ email r = email res)
          \/ ((1 <= k)%nat /\ email r = address
              /\ (status r = "valid" \/ status r = "invalid"
                  \/ status r = "retry_later"))).
Proof.
  induction hosts as [|mx hosts IH]; intros res st.
  - exists res, st, [], 0%nat. cbn [verify_smtp_loop]. rewrite app_nil_r.
    split; [reflexivity|]. split; [reflexivity|].
    split; [apply tried_none|]. left. auto.
  - rewrite verify_smtp_loop_cons, probe_host_run.
    destruct (attempt_tried address mx st) as (s1 & Htr1 & Ht1).
    destruct (session env cfg address mx st) as [[e|reply] st1];
      cbn [fst snd] in *.
    + destruct (IH (set_reason res (error_note mx e))
                   (after_quit env mx st1))
        as (r & st' & s2 & k & -> & Htr2 & Ht2 & Hk).
      exists r, st', (s1 ++ s2)%list, (S k).
      rewrite Htr2, Htr1, app_assoc.
      split; [reflexivity|]. split; [reflexivity|].
      split; [apply tried_next; assumption|].
      destruct Hk as [(-> & Hs & He) | (Hk & He & Hs)];
        [left; cbn in *; auto | right; repeat split; auto; lia].
    + destruct (classify_rcpt address (fst reply) (snd reply))
        as [final|note] eqn:Ec.
      * apply classify_rcpt_final in Ec as [He Hs].
        exists final, (after_quit env mx st1), s1, 1%nat.
        split; [reflexivity|]. split; [assumption|].
        split; [apply tried_first; assumption|]. right. auto.
      * destruct (IH (set_reason res note) (after_quit env mx st1))
          as (r & st' & s2 & k & -> & Htr2 & Ht2 & Hk).
        exists r, st', (s1 ++ s2)%list, (S k).
        rewrite Htr2, Htr1, app_assoc.
        split; [reflexivity|]. split; [reflexivity|].
        split; [apply tried_next; assumption|].
        destruct Hk as [(-> & Hs & He) | (Hk & He & Hs)];
          [left; cbn in *; auto | right; repeat split; auto; lia].
Qed.

Lemma is_catch_all_loop_tried test_email hosts :
  forall st,
    exists b st' suffix k,
      is_catch_all_loop env cfg test_email hosts st = (inr b, st')
      /\ trace st' = (trace st ++ suffix)%list
      /\ tried hosts test_email k suffix
      /\ (b = false -> k = List.length hosts)
      /\ (b = true -> (1 <= k)%nat).
Proof.
  induction hosts as [|mx hosts IH]; intros st.
  - exists false, st, [], 0%nat. cbn [is_catch_all_loop]. rewrite app_nil_r.
    split; [reflexivity|]. split; [reflexivity|].
    split; [apply tried_none|]. split; [reflexivity | discriminate].
  - cbn [is_catch_all_loop]. unfold bind. rewrite catch_all_host_run.
    destruct (attempt_tried test_email mx st) as (s1 & Htr1 & Ht1).
    destruct (session env cfg test_email mx st) as [[e|reply] st1];
      cbn [fst snd] in *.
    + destruct (IH (after_quit env mx st1))
        as (b & st' & s2 & k & -> & Htr2 & Ht2 & Hf & Ht).
      exists b, st', (s1 ++ s2)%list, (S k).
      rewrite Htr2, Htr1, app_assoc.
      split; [reflexivity|]. split; [reflexivity|].
      split; [apply tried_next; assumption|]. split.
      * intros Hb. cbn. rewrite Hf; auto.
      * intros _. lia.
    + destruct (fst reply =? 250)%Z.
      * exists true, (after_quit env mx st1), s1, 1%nat.
        split; [reflexivity|]. split; [assumption|].
        split; [apply tried_first; assumption|].
        split; [discriminate | auto].
      * destruct (IH (after_quit env mx st1))
          as (b & st' & s2 & k & -> & Htr2 & Ht2 & Hf & Ht).
        exists b, st', (s1 ++ s2)%list, (S k).
        rewrite Htr2, Htr1, app_assoc.
        split; [reflexivity|]. split; [reflexivity|].
        split; [apply tried_next; assumption|]. split.
        -- intros Hb. cbn. rewrite Hf; auto.
        -- intros _. lia.
Qed.

End ProbeTraces.

(** [verify_smtp] never raises, whatever the hosts do: it returns a result
    for the address it was given, whose status is "valid", "invalid",
    "retry_later" or "undeliverable", and never "caution". *)
Theorem verify_smtp_always_classifies
        {World : Type} (env : Collaborators World) (cfg : Config)
        (address : string) (mx_records : list string) (st : State World) :
  exists r,
    fst (verify_smtp env cfg address mx_records st) = inr r
    /\ email r = address
    /\ (status r = "valid" \/ status r = "invalid"
        \/ status r = "retry_later" \/ status r = "undeliverable")
    /\ status r <> "caution".
Proof.
  unfold verify_smtp.
  destruct (verify_smtp_loop_tried env cfg address mx_records
              (mk_result address "undeliverable" "") st)
    as (r & st' & suffix & k & -> & _ & _ & Hk).
  exists r. split; [reflexivity|].
  destruct Hk as [(_ & Hs & He) | (_ & He & Hs)]; cbn in *.
  - rewrite Hs. repeat split; auto. discriminate.
  - split; [assumption|].
    destruct Hs as [-> | [-> | ->]]; split; auto; discriminate.
Qed.

(** [verify_smtp] goes through the candidates in the order given, each at
    most once, and stops at some point of the list: the hosts it connected
    to are a prefix of the list; each of them was admitted by the limiter
    once and was sent [quit]; the only recipient ever named is the address
    under test.  A result "undeliverable" means every candidate was tried;
    any other result means at least one was. *)
Theorem verify_smtp_tries_a_prefix_of_the_candidates
        {World : Type} (env : Collaborators World) (cfg : Config)
        (address : string) (mx_records : list string) (st : State World) :
  exists r st' suffix k,
    verify_smtp env cfg address mx_records st = (inr r, st')
    /\ trace st' = (trace st ++ suffix)%list
    /\ tried mx_records address k suffix
    /\ (status r = "undeliverable" -> k = List.length mx_records)
    /\ (status r <> "undeliverable" -> (1 <= k)%nat).
Proof.
  unfold verify_smtp.
  destruct (verify_smtp_loop_tried env cfg address mx_records
              (mk_result address "undeliverable" "") st)
    as (r & st' & suffix & k & -> & Htr & Ht & Hk).
  exists r, st', suffix, k.
  split; [reflexivity|]. split; [assumption|]. split; [assumption|].
  destruct Hk as [(-> & Hs & _) | (Hk & _ & Hs)]; cbn in *.
  - split; [reflexivity | congruence].
  - split; [|auto]. intros Hu. rewrite Hu in Hs.
    destruct Hs as [Hs | [Hs | Hs]]; discriminate.
Qed.

Lemma verify_smtp_tries_a_prefix_of_the_candidates_witness :
  exists r st' suffix k,
    verify_smtp (scripted one_mx rejecting true) CONFIG "user@example.com"
                ["mx1"; "mx2"] start = (inr r, st')
    /\ trace st' = (trace start ++ suffix)%list
    /\ tried ["mx1"; "mx2"] "user@example.com" k suffix
    /\ (status r = "undeliverable" -> k = List.length ["mx1"; "mx2"])
    /\ (status r <> "undeliverable" -> (1 <= k)%nat).
Proof.
  apply (verify_smtp_tries_a_prefix_of_the_candidates
           (scripted one_mx rejecting true) CONFIG "user@example.com"
           ["mx1"; "mx2"] start).
Defined.

(** [is_catch_all] never raises.  It draws its random address once, then
    tries the candidates in order with that address as the only recipient,
    through the same admission, connection and [quit] as the probe.  It
    answers [true] only after trying at least one host, and [false] only
    after trying them all. *)
Theorem is_catch_all_tries_until_accepted
        {World : Type} (env : Collaborators World) (cfg : Config)
        (domain : string) (mx_records : list string) (st : State World) :
  let test_email :=
    "fakeuser" ++ fst (urandom_hex env (world st)) ++ "@" ++ domain in
  exists b st' suffix k,
    is_catch_all env cfg domain mx_records st = (inr b, st')
    /\ trace st' = (trace st ++ EvUrandom :: suffix)%list
    /\ tried mx_records test_email k suffix
    /\ (b = false -> k = List.length mx_records)
    /\ (b = true -> (1 <= k)%nat).
Proof.
  intros test_email. unfold is_catch_all, bind, call_total.
  subst test_email.
  destruct (urandom_hex env (world st)) as [hex w]. cbn [fst].
  destruct (is_catch_all_loop_tried env cfg
              ("fakeuser" ++ hex ++ "@" ++ domain) mx_records
              (mk_state w (trace st ++ [EvUrandom])))
    as (b & st' & suffix & k & -> & Htr & Ht & Hf & Hb).
  exists b, st', suffix, k. cbn [trace] in Htr.
  rewrite Htr, <- app_assoc. auto.
Qed.

Lemma is_catch_all_tries_until_accepted_witness :
  exists b st' suffix k,
    is_catch_all (scripted one_mx rejecting true) CONFIG "example.com"
                 ["mx1"; "mx2"] start = (inr b, st')
    /\ trace st' = (trace start ++ EvUrandom :: suffix)%list
    /\ tried ["mx1"; "mx2"] "fakeuser00000000@example.com" k suffix
    /\ (b = false -> k = List.length ["mx1"; "mx2"])
    /\ (b = true -> (1 <= k)%nat).
Proof.
  apply (is_catch_all_tries_until_accepted
           (scripted one_mx rejecting true) CONFIG "example.com"
           ["mx1"; "mx2"] start).
Defined.

(* ------------------------------------------------------------------ *)
(** ** The pipeline: the MX stage and the store *)

Lemma mx_hostnames_empty answers : mx_hostnames answers = [] -> answers = [].
Proof.
  intros H. apply (f_equal (@List.length string)) in H.
  unfold mx_hostnames in H. rewrite length_map in H.
  rewrite <- (Permutation_length (sorted_by_preference_perm answers)) in H.
  destruct answers; [reflexivity | discriminate].
Qed.

(** Past the three heuristics the answer is decided by the MX lookup alone:
    "invalid" with reason "No MX records found" when the resolver raises,
    whatever it raises, or answers with no record; "valid" with reason
    "MX records found" when it answers with at least one. *)
Theorem mx_stage_verdict
        {World : Type} (env : Collaborators World)
        (address local_part domain : string) (st : State World) :
  validate_syntax address = true ->
  rsplit_at address = Some (local_part, domain) ->
  in_strings (lower domain) DISPOSABLE_EMAIL_DOMAINS = false ->
  in_strings (lower local_part) ROLE_BASED_EMAILS = false ->
  fst (process_email env address st)
  = inr match fst (dns_resolve env (lower domain) (world st)) with
        | inl _ | inr [] =>
            mk_result address "invalid" "No MX records found"
        | inr (_ :: _) => mk_result address "valid" "MX records found"
        end.
Proof.
  intros Hsyn Hsplit Hd Hl.
  rewrite process_email_run, Hsyn, Hsplit, Hd, Hl. cbv zeta. cbn [negb].
  rewrite get_mx_records_run. cbn [world].
  destruct (dns_resolve env (lower domain) (world st)) as [[e|answers] w];
    cbn [fst snd]; [reflexivity|].
  destruct (mx_hostnames answers) eqn:E.
  - apply mx_hostnames_empty in E. subst. reflexivity.
  - destruct answers; [discriminate | reflexivity].
Qed.

Lemma mx_stage_verdict_witness :
  fst (process_email
         (scripted (fun _ => inl (mk_exn Timeout "The DNS operation timed out"))
                   rejecting true)
         "user@example.com" start)
  = inr (mk_result "user@example.com" "invalid" "No MX records found").
Proof.
  apply (mx_stage_verdict
           (scripted
              (fun _ => inl (mk_exn Timeout "The DNS operation timed out"))
              rejecting true)
           "user@example.com" "user" "example.com" start);
    reflexivity.
Defined.

Section StoreCalls.

Context {World : Type}.
Variable env : Collaborators World.

Lemma filter_store_app a b :
  filter is_store (a ++ b) = (filter is_store a ++ filter is_store b)%list.
Proof. apply filter_app. Qed.

(** The events of the upsert: one [get_item], then at most one write, which
    carries the result; nothing for SMTP, no admission. *)
Lemma persist_store_calls res st :
  exists suffix,
    trace (snd (persist env res st)) = (trace st ++ suffix)%list
    /\ existsb is_smtp suffix = false
    /\ admissions suffix = 0%nat
    /\ (filter is_store suffix = [EvGetItem (email res)]
        \/ filter is_store suffix
           = [EvGetItem (email res);
              EvUpdateItem (email res) (status res) (reason res)]
        \/ filter is_store suffix = [EvGetItem (email res); EvPutItem res]).
Proof.
  unfold persist, try_except, bind, call, emit.
  destruct (table_get_item env (email res) (world st))
    as [[e|[item|]] w1]; cbn.
  - eexists. rewrite <- app_assoc. split; [reflexivity|]. cbn. auto.
  - destruct (table_update_item env _ _ _ w1) as [[e|[]] w2]; cbn;
      eexists; rewrite <- ?app_assoc; (split; [reflexivity|]); cbn; auto.
  - destruct (table_put_item env res w1) as [[e|[]] w2]; cbn;
      eexists; rewrite <- ?app_assoc; (split; [reflexivity|]); cbn; auto.
Qed.

End StoreCalls.

(** [process_email] never opens an SMTP session and never asks the limiter
    for a token.  It touches the table only when the address got past the
    three heuristics, and then with one [get_item] under the address as
    given, followed by at most one write that carries exactly what is
    returned: the returned status and reason in an [update_item], or the
    returned dictionary in a [put_item]. *)
Theorem process_email_writes_what_it_returns
        {World : Type} (env : Collaborators World)
        (address : string) (st : State World) :
  exists r st' suffix,
    process_email env address st = (inr r, st')
    /\ trace st' = (trace st ++ suffix)%list
    /\ existsb is_smtp suffix = false
    /\ admissions suffix = 0%nat
    /\ (filter is_store suffix = []
        \/ filter is_store suffix = [EvGetItem address]
        \/ filter is_store suffix
           = [EvGetItem address;
              EvUpdateItem address (status r) (reason r)]
        \/ filter is_store suffix = [EvGetItem address; EvPutItem r])
    /\ (reason r = "Invalid syntax" \/ reason r = "Disposable email"
        \/ reason r = "Role-based email" ->
        filter is_store suffix = []).
Proof.
  rewrite process_email_run. cbv zeta.
  set (st0 := mk_state (world st) (trace st ++ [EvLogProcessing address])).
  assert (Early :
    forall r, reason r <> "" ->
      exists r' st' suffix,
        (inr r : exn + result, st0) = (inr r', st')
        /\ trace st' = (trace st ++ suffix)%list
        /\ existsb is_smtp suffix = false
        /\ admissions suffix = 0%nat
        /\ (filter is_store suffix = []
            \/ filter is_store suffix = [EvGetItem address]
            \/ filter is_store suffix
               = [EvGetItem address;
                  EvUpdateItem address (status r') (reason r')]
            \/ filter is_store suffix = [EvGetItem address; EvPutItem r'])
        /\ (reason r' = "Invalid syntax" \/ reason r' = "Disposable email"
            \/ reason r' = "Role-based email" ->
            filter is_store suffix = [])).
  { intros r _. exists r, st0, [EvLogProcessing address]. cbn. auto 8. }
  destruct (validate_syntax address) eqn:Hsyn; cbn [negb];
    [|apply Early; discriminate].
  destruct (validate_syntax_rsplit address Hsyn) as (l & d & ->).
  destruct (in_strings (lower d) DISPOSABLE_EMAIL_DOMAINS);
    [apply Early; discriminate|].
  destruct (in_strings (lower l) ROLE_BASED_EMAILS);
    [apply Early; discriminate|].
  clear Early. rewrite get_mx_records_run. cbn [world st0].
  assert (Late :
    forall mx_records w lookup,
      existsb is_smtp lookup = false -> admissions lookup = 0%nat ->
      filter is_store lookup = [] ->
      exists r st' suffix,
        (inr (mx_verdict address mx_records) : exn + result,
         snd (persist env (mx_verdict address mx_records)
                (mk_state w (trace st0 ++ lookup))))
        = (inr r, st')
        /\ trace st' = (trace st ++ suffix)%list
        /\ existsb is_smtp suffix = false
        /\ admissions suffix = 0%nat
        /\ (filter is_store suffix = []
            \/ filter is_store suffix = [EvGetItem address]
            \/ filter is_store suffix
               = [EvGetItem address;
                  EvUpdateItem address (status r) (reason r)]
            \/ filter is_store suffix = [EvGetItem address; EvPutItem r])
        /\ (reason r = "Invalid syntax" \/ reason r = "Disposable email"
            \/ reason r = "Role-based email" ->
            filter is_store suffix = [])).
  { intros mx_records w lookup Hsm Had Hst.
    destruct (persist_store_calls env (mx_verdict address mx_records)
                (mk_state w (trace st0 ++ lookup)))
      as (s2 & Htr & Hsm2 & Had2 & Hcalls).
    assert (Hem : email (mx_verdict address mx_records) = address)
      by (destruct mx_records; reflexivity).
    rewrite Hem in Hcalls.
    exists (mx_verdict address mx_records),
      (snd (persist env (mx_verdict address mx_records)
              (mk_state w (trace st0 ++ lookup)))),
      (EvLogProcessing address :: lookup ++ s2)%list.
    split; [reflexivity|]. split.
    { rewrite Htr. subst st0. cbn [trace].
      rewrite <- !app_assoc. reflexivity. }
    split.
    { cbn [existsb is_smtp orb]. rewrite existsb_app, Hsm, Hsm2.
      reflexivity. }
    split.
    { cbn [admissions]. rewrite admissions_app, Had, Had2. reflexivity. }
    split.
    { cbn [filter is_store]. rewrite filter_app, Hst. cbn [app].
      right. exact Hcalls. }
    destruct mx_records; cbn;
      intros [H | [H | H]]; discriminate. }
  destruct (dns_resolve env (lower d) (world st)) as [[e|answers] w];
    cbn [fst snd].
  - apply (Late [] w). all: destruct (exn_cls e); reflexivity.
  - apply (Late (mx_hostnames answers) w [EvResolve (lower d)]);
      reflexivity.
Qed.

(* ------------------------------------------------------------------ *)
(** ** The upsert against a key-value table *)

Lemma result_eta res : mk_result (email res) (status res) (reason res) = res.
Proof. destruct res; reflexivity. Qed.

Lemma table_update_twice key s r table :
  table_update key s r (table_update key s r table)
  = table_update key s r table.
Proof.
  induction table as [|item table IH]; cbn; [reflexivity|].
  destruct (String.eqb (email item) key) eqn:E; cbn.
  - rewrite String.eqb_refl. reflexivity.
  - rewrite E, IH. reflexivity.
Qed.

Lemma table_update_lookup key s r table :
  table_lookup key (table_update key s r table)
  = match table_lookup key table with
    | Some _ => Some (mk_result key s r)
    | None => None
    end.
Proof.
  induction table as [|item table IH]; cbn; [reflexivity|].
  destruct (String.eqb (email item) key) eqn:E; cbn.
  - rewrite String.eqb_refl. reflexivity.
  - rewrite E, IH. reflexivity.
Qed.

Lemma table_update_other key s r other table :
  other <> key ->
  table_lookup other (table_update key s r table) = table_lookup other table.
Proof.
  intros Hne. induction table as [|item table IH]; cbn; [reflexivity|].
  destruct (String.eqb (email item) key) eqn:E; cbn.
  - apply String.eqb_eq in E. rewrite E.
    destruct (String.eqb_spec key other); [congruence | reflexivity].
  - rewrite IH. reflexivity.
Qed.

Lemma table_update_count key s r table :
  count_key key (table_update key s r table) = count_key key table.
Proof.
  induction table as [|item table IH]; cbn; [reflexivity|].
  destruct (String.eqb (email item) key) eqn:E; cbn.
  - rewrite String.eqb_refl. reflexivity.
  - rewrite E, IH. reflexivity.
Qed.

Lemma table_lookup_none_count key table :
  table_lookup key table = None -> count_key key table = 0%nat.
Proof.
  induction table as [|item table IH]; cbn; [reflexivity|].
  destruct (String.eqb (email item) key); [discriminate | exact IH].
Qed.

Lemma upsert_twice res table : upsert res (upsert res table) = upsert res table.
Proof.
  unfold upsert.
  destruct (table_lookup (email res) table) eqn:E.
  - rewrite table_update_lookup, E. apply table_update_twice.
  - cbn [table_lookup table_update]. rewrite String.eqb_refl, result_eta.
    reflexivity.
Qed.

Lemma upsert_lookup res table :
  table_lookup (email res) (upsert res table) = Some res.
Proof.
  unfold upsert. destruct (table_lookup (email res) table) eqn:E.
  - rewrite table_update_lookup, E, result_eta. reflexivity.
  - cbn. rewrite String.eqb_refl. reflexivity.
Qed.

Lemma upsert_other res other table :
  other <> email res ->
  table_lookup other (upsert res table) = table_lookup other table.
Proof.
  intros Hne. unfold upsert.
  destruct (table_lookup (email res) table) eqn:E.
  - apply table_update_other. assumption.
  - cbn. destruct (String.eqb_spec (email res) other);
      [congruence | reflexivity].
Qed.

Lemma upsert_count res table :
  (count_key (email res) (upsert res table)
   <= Nat.max 1 (count_key (email res) table))%nat.
Proof.
  unfold upsert. destruct (table_lookup (email res) table) eqn:E.
  - rewrite table_update_count. lia.
  - cbn. rewrite String.eqb_refl, (table_lookup_none_count _ _ E). lia.
Qed.

Section ScriptedStore.

Variable answers : string -> exn + list mx_rdata.
Variable replies : string -> string -> exn + Z * string.

Lemma persist_scripted res st :
  world (snd (persist (scripted answers replies true) res st))
  = upsert res (world st).
Proof.
  unfold persist, try_except, bind, call, emit, upsert. cbn.
  destruct (table_lookup (email res) (world st)); reflexivity.
Qed.

(** Over the concrete world the answer for an address is the same from any
    state, and the table it leaves is the table it found, untouched or with
    that answer upserted. *)
Lemma process_email_scripted address :
  exists r (stored : bool),
    email r = address
    /\ forall st,
        fst (process_email (scripted answers replies true) address st) = inr r
        /\ world (snd (process_email (scripted answers replies true)
                                     address st))
           = (if stored then upsert r (world st) else world st).
Proof.
  destruct (validate_syntax address) eqn:Hsyn.
  2: { exists (mk_result address "invalid" "Invalid syntax"), false.
       split; [reflexivity|]. intros st.
       rewrite process_email_run, Hsyn. auto. }
  destruct (validate_syntax_rsplit address Hsyn) as (l & d & Hsplit).
  destruct (in_strings (lower d) DISPOSABLE_EMAIL_DOMAINS) eqn:Hd.
  { exists (mk_result address "invalid" "Disposable email"), false.
    split; [reflexivity|]. intros st.
    rewrite process_email_run, Hsyn, Hsplit, Hd. auto. }
  destruct (in_strings (lower l) ROLE_BASED_EMAILS) eqn:Hl.
  { exists (mk_result address "caution" "Role-based email"), false.
    split; [reflexivity|]. intros st.
    rewrite process_email_run, Hsyn, Hsplit, Hd, Hl. auto. }
  exists (mx_verdict address
            match answers (lower d) with
            | inr a => mx_hostnames a
            | inl _ => []
            end), true.
  split; [destruct (answers (lower d)) as [|a];
          [|destruct (mx_hostnames a)]; reflexivity|].
  intros st.
  rewrite process_email_run, Hsyn, Hsplit, Hd, Hl. cbv zeta. cbn [negb].
  rewrite get_mx_records_run. cbn [dns_resolve scripted world].
  destruct (answers (lower d)) as [e|a]; cbn [fst snd];
    rewrite persist_scripted; cbn [world]; auto.
Qed.

End ScriptedStore.

(** Against a table that behaves as a map from key to record (the concrete
    world with its store up), the read-then-write of [process_email] is an
    upsert: verifying an address a second time leaves the table as the first
    time left it; the records under the address never grow beyond one if
    there was none, nor beyond what there was; the records under other keys
    are found as before; and when a record was written, looking the address
    up gives back exactly the result that was returned. *)
Theorem store_upsert_is_idempotent
        (answers : string -> exn + list mx_rdata)
        (replies : string -> string -> exn + Z * string)
        (address : string) (st : State (list result)) :
  let env := scripted answers replies true in
  let st1 := snd (process_email env address st) in
  let st2 := snd (process_email env address st1) in
  world st2 = world st1
  /\ (count_key address (world st1)
      <= Nat.max 1 (count_key address (world st)))%nat
  /\ (forall other, other <> address ->
        table_lookup other (world st1) = table_lookup other (world st))
  /\ (world st1 <> world st ->
      exists r, fst (process_email env address st) = inr r
                /\ table_lookup address (world st1) = Some r).
Proof.
  intros env st1 st2. subst env st1 st2.
  destruct (process_email_scripted answers replies address)
    as (r & stored & Hem & H).
  destruct (H st) as [Hr1 Hw1].
  destruct (H (snd (process_email (scripted answers replies true)
                                  address st))) as [_ Hw2].
  rewrite Hw2, Hw1. subst address. destruct stored.
  - split; [apply upsert_twice|]. split; [apply upsert_count|].
    split; [intros other Hne; apply upsert_other; assumption|].
    intros _. exists r. split; [assumption | apply upsert_lookup].
  - split; [reflexivity|]. split; [lia|]. split; [reflexivity|].
    intros Hne. congruence.
Qed.

(* ------------------------------------------------------------------ *)
(** ** The Lambda entry point *)

Section EntryPointFacts.

Context {World : Type}.
Variable env : Collaborators World.
Variable cfg : Config.

(** With a batch size above zero, [process_emails] returns one result per
    address, in order. *)
Lemma process_emails_returns emails st :
  (0 < batch_size cfg)%Z ->
  exists results st',
    process_emails env cfg emails st = (inr results, st')
    /\ map email results = emails.
Proof.
  intros HB.
  set (B := Z.to_nat (batch_size cfg)).
  set (N := List.length emails).
  assert (HB1 : (1 <= B)%nat) by (subst B; lia).
  assert (Hstarts : range_from N 0 N B
                    = map (fun k => k * B)%nat (seq 0 (ceil_div N B))).
  { rewrite range_from_seq by lia.
    rewrite Nat.sub_0_r. apply map_ext. intros k. lia. }
  assert (Hcat : List.concat (map (chunk B emails) (seq 0 (ceil_div N B)))
                 = emails).
  { pose proof (range_from_slices emails B N 0 HB1) as H.
    fold N in H. rewrite Hstarts, map_map in H. unfold chunk.
    rewrite H by lia. reflexivity. }
  unfold process_emails, py_range. fold N.
  destruct (batch_size cfg =? 0)%Z eqn:E0; [lia|].
  destruct (batch_size cfg <? 0)%Z eqn:E1; [lia|].
  fold B. rewrite Hstarts.
  destruct (process_batches_run env cfg emails (seq 0 (ceil_div N B))
              HB1 [] st) as (rs & st' & Hrun & Hrs & _).
  fold B in Hrun, Hrs. cbn [app] in Hrun.
  exists rs, st'. rewrite Hrun, Hrs, Hcat. auto.
Qed.

Lemma record_bodies_missing records :
  Exists (fun record => record_field "body" record = None) records ->
  record_bodies records = inl (key_error "body").
Proof.
  induction records as [|record records IH]; intros H; cbn [record_bodies].
  - inversion H.
  - destruct (record_field "body" record) as [b|] eqn:E; [|reflexivity].
    inversion H as [? ? Hhead | ? ? Htail]; subst; [congruence|].
    rewrite IH by assumption. reflexivity.
Qed.

Lemma record_bodies_length records bodies :
  record_bodies records = inr bodies ->
  List.length bodies = List.length records
  /\ Forall2 (fun record b => record_field "body" record = Some b)
             records bodies.
Proof.
  revert bodies. induction records as [|record records IH]; intros bodies;
    cbn [record_bodies].
  - intros [= <-]. auto.
  - destruct (record_field "body" record) as [b|] eqn:E; [|discriminate].
    destruct (record_bodies records) as [e|bs]; [discriminate|].
    intros [= <-]. destruct (IH bs eq_refl) as [Hlen Hall].
    cbn. split; [congruence | constructor; assumption].
Qed.

End EntryPointFacts.

(** [lambda_handler] never raises.  It answers 200 with a message or a list
    of results, or 500 with the text of the exception that stopped it; in the
    second case the last thing it did was to log that text at error
    level. *)
Theorem lambda_handler_always_answers
        {World : Type} (env : Collaborators World) (cfg : Config)
        (event : lambda_event) (st : State World) :
  exists resp st',
    lambda_handler env cfg event st = (inr resp, st')
    /\ ((statusCode resp = 200%Z
         /\ ((exists m, body resp = BodyMessage m)
             \/ exists m results, body resp = BodyResults m results))
        \/ (statusCode resp = 500%Z
            /\ exists text before,
                body resp = BodyError text
                /\ trace st'
                   = (before
                      ++ [EvLogError ("Lambda execution failed: " ++ text)])%list)).
Proof.
  unfold lambda_handler, try_except, bind, raise, ret, emit.
  destruct (is_empty _).
  { do 2 eexists. split; [reflexivity|]. left. cbn. eauto. }
  destruct (record_bodies _) as [e|emails].
  { do 2 eexists. split; [reflexivity|]. right. cbn. eauto. }
  destruct (is_empty emails).
  { do 2 eexists. split; [reflexivity|]. left. cbn. eauto. }
  destruct (process_emails env cfg emails st) as [[e|results] st1].
  - do 2 eexists. split; [reflexivity|]. right. cbn. eauto.
  - do 2 eexists. split; [reflexivity|]. left. cbn. eauto.
Qed.

(** An event with no ["Records"] key, or with an empty list under it, is
    answered 200 "No emails to process"; nothing is called and nothing is
    logged at error level. *)
Theorem lambda_handler_without_records
        {World : Type} (env : Collaborators World) (cfg : Config)
        (event : lambda_event) (st : State World) :
  Records event = None \/ Records event = Some [] ->
  lambda_handler env cfg event st
  = (inr (mk_response 200 (BodyMessage "No emails to process")), st).
Proof.
  intros [H | H]; unfold lambda_handler, try_except; rewrite H; reflexivity.
Qed.

Lemma lambda_handler_without_records_witness :
  lambda_handler (scripted one_mx rejecting true) CONFIG
                 {| Records := None |} start
  = (inr (mk_response 200 (BodyMessage "No emails to process")), start).
Proof.
  apply (lambda_handler_without_records (scripted one_mx rejecting true)
           CONFIG {| Records := None |} start).
  left. reflexivity.
Defined.

(** One record without a ["body"] fails the whole event: the answer is 500
    with the text of the [KeyError], and no address of the event is
    processed, not even those of the records before it. *)
Theorem lambda_handler_missing_body
        {World : Type} (env : Collaborators World) (cfg : Config)
        (event : lambda_event) (records : list sqs_record)
        (st : State World) :
  Records event = Some records ->
  Exists (fun record => record_field "body" record = None) records ->
  lambda_handler env cfg event st
  = (inr (mk_response 500 (BodyError "'body'")),
     mk_state (world st)
       (trace st ++ [EvLogError "Lambda execution failed: 'body'"])).
Proof.
  intros Hrec Hmiss. unfold lambda_handler, try_except. rewrite Hrec.
  destruct records as [|record records]; [inversion Hmiss|].
  cbn [is_empty]. rewrite record_bodies_missing by assumption.
  reflexivity.
Qed.

Lemma lambda_handler_missing_body_witness :
  lambda_handler (scripted one_mx rejecting true) CONFIG
    {| Records := Some [[("body", "user@example.com")];
                        [("messageId", "42")]] |} start
  = (inr (mk_response 500 (BodyError "'body'")),
     mk_state (world start)
       (trace start ++ [EvLogError "Lambda execution failed: 'body'"])).
Proof.
  apply (lambda_handler_missing_body (scripted one_mx rejecting true) CONFIG
           {| Records := Some [[("body", "user@example.com")];
                               [("messageId", "42")]] |}
           [[("body", "user@example.com")]; [("messageId", "42")]] start).
  - reflexivity.
  - apply Exists_cons_tl, Exists_cons_hd. reflexivity.
Defined.

(** When every record has a ["body"] and the batch size is above zero, the
    answer is 200 with one result per record, in the order of the records,
    each for the body of its record. *)
Theorem lambda_handler_results_follow_records
        {World : Type} (env : Collaborators World) (cfg : Config)
        (event : lambda_event) (records : list sqs_record)
        (st : State World) :
  Records event = Some records ->
  records <> [] ->
  Forall (fun record => record_field "body" record <> None) records ->
  (0 < batch_size cfg)%Z ->
  exists results st',
    lambda_handler env cfg event st
    = (inr (mk_response 200 (BodyResults "Processed emails" results)), st')
    /\ List.length results = List.length records
    /\ Forall2 (fun record r => record_field "body" record = Some (email r))
               records results.
Proof.
  intros Hrec Hne Hall HB. unfold lambda_handler, try_except. rewrite Hrec.
  destruct records as [|record records]; [congruence|]. cbn [is_empty].
  destruct (record_bodies (record :: records)) as [e|bodies] eqn:Eb.
  { exfalso. clear Hrec Hne. revert e Eb.
    induction Hall as [|rec recs Hhead Htail IH]; intros e;
      cbn [record_bodies]; [discriminate|].
    destruct (record_field "body" rec); [|congruence].
    destruct (record_bodies recs) as [e'|bs] eqn:E; [|discriminate].
    intros _. exact (IH e' eq_refl). }
  destruct (record_bodies_length _ _ Eb) as [Hlen Hpair].
  destruct bodies as [|b bodies]; [discriminate|]. cbn [is_empty].
  unfold bind.
  destruct (process_emails_returns env cfg (b :: bodies) st HB)
    as (results & st' & -> & Hmap).
  exists results, st'. split; [reflexivity|]. split.
  - rewrite <- Hlen, <- Hmap, length_map. reflexivity.
  - rewrite <- Hmap in Hpair. clear - Hpair.
    remember (record :: records) as recs eqn:E. clear E.
    revert recs Hpair. induction results as [|r results IH];
      intros recs Hpair; inversion Hpair; subst; constructor; auto.
Qed.

Lemma lambda_handler_results_follow_records_witness :
  exists results st',
    lambda_handler (scripted one_mx rejecting true) CONFIG
      {| Records := Some [[("body", "user@example.com")];
                          [("body", "admin@example.org")]] |} start
    = (inr (mk_response 200 (BodyResults "Processed emails" results)), st')
    /\ List.length results
       = List.length [[("body", "user@example.com")];
                      [("body", "admin@example.org")]]
    /\ Forall2 (fun record r => record_field "body" record = Some (email r))
               [[("body", "user@example.com")];
                [("body", "admin@example.org")]] results.
Proof.
  apply (lambda_handler_results_follow_records
           (scripted one_mx rejecting true) CONFIG
           {| Records := Some [[("body", "user@example.com")];
                               [("body", "admin@example.org")]] |}
           [[("body", "user@example.com")]; [("body", "admin@example.org")]]
           start).
  - reflexivity.
  - discriminate.
  - repeat constructor; discriminate.
  - reflexivity.
Defined.

(** The batch size is not checked.  With a batch size of zero every event
    that holds an address is answered 500, the [range] refusing its step;
    with a negative one it is answered 200 with an empty list of results,
    no address having been processed. *)
Theorem lambda_handler_degenerate_batch_size
        {World : Type} (env : Collaborators World) (cfg : Config)
        (event : lambda_event) (records : list sqs_record)
        (bodies : list string) (st : State World) :
  Records event = Some records ->
  record_bodies records = inr bodies ->
  bodies <> [] ->
  (batch_size cfg = 0%Z ->
   lambda_handler env cfg event st
   = (inr (mk_response 500 (BodyError "range() arg 3 must not be zero")),
      mk_state (world st)
        (trace st
         ++ [EvLogError
               "Lambda execution failed: range() arg 3 must not be zero"])))
  /\ ((batch_size cfg < 0)%Z ->
      lambda_handler env cfg event st
      = (inr (mk_response 200 (BodyResults "Processed emails" [])), st)).
Proof.
  intros Hrec Hb Hne. unfold lambda_handler, try_except. rewrite Hrec.
  destruct records as [|record records];
    [cbn in Hb; injection Hb as <-; congruence|].
  cbn [is_empty]. rewrite Hb.
  destruct bodies as [|b bodies]; [congruence|]. cbn [is_empty].
  unfold bind, process_emails, py_range. split.
  - intros ->. reflexivity.
  - intros Hneg.
    destruct (batch_size cfg =? 0)%Z eqn:E0; [lia|].
    destruct (batch_size cfg <? 0)%Z eqn:E1; [reflexivity | lia].
Qed.

Lemma lambda_handler_degenerate_batch_size_witness :
  lambda_handler (scripted one_mx rejecting true)
    {| sender_email := "test@example.com"; batch_size := -1 |}
    {| Records := Some [[("body", "user@example.com")]] |} start
  = (inr (mk_response 200 (BodyResults "Processed emails" [])), start).
Proof.
  apply (proj2 (lambda_handler_degenerate_batch_size
                  (scripted one_mx rejecting true)
                  {| sender_email := "test@example.com"; batch_size := -1 |}
                  {| Records := Some [[("body", "user@example.com")]] |}
                  [[("body", "user@example.com")]] ["user@example.com"]
                  start eq_refl eq_refl ltac:(discriminate))).
  reflexivity.
Defined.

(* ------------------------------------------------------------------ *)
(** ** The command-line utilities *)

Lemma looked_up_app a b :
  looked_up (a ++ b) = (looked_up a ++ looked_up b)%list.
Proof.
  induction a as [|ev a IH]; [reflexivity|].
  destruct ev; cbn; rewrite IH; reflexivity.
Qed.

Lemma printed_app a b : printed (a ++ b) = (printed a + printed b)%nat.
Proof.
  induction a as [|ev a IH]; [reflexivity|].
  destruct ev; cbn; rewrite IH; reflexivity.
Qed.

Lemma send_attempts_app a b :
  send_attempts (a ++ b) = (send_attempts a ++ send_attempts b)%list.
Proof.
  induction a as [|ev a IH]; [reflexivity|].
  destruct ev; cbn; rewrite IH; reflexivity.
Qed.

Lemma sends_done_app a b :
  sends_done (a ++ b) = (sends_done a + sends_done b)%nat.
Proof.
  induction a as [|ev a IH]; [reflexivity|].
  destruct ev as [| | |? []| |]; cbn; rewrite IH; reflexivity.
Qed.

Section UtilityFacts.

Context {World : Type}.
Variable cli : CliCollaborators World.

Lemma check_each_log emails :
  forall st,
    exists suffix,
      cli_log (snd (check_each cli emails st)) = (cli_log st ++ suffix)%list
      /\ match fst (check_each cli emails st) with
         | None =>
             looked_up suffix = emails
             /\ printed suffix = List.length emails
         | Some e =>
             (forall text, e <> ClientError text)
             /\ exists k,
                 (k < List.length emails)%nat
                 /\ looked_up suffix = firstn (S k) emails
                 /\ printed suffix = k
         end.
Proof.
  induction emails as [|a emails IH]; intros st; cbn [check_each].
  - exists []. cbn. rewrite app_nil_r. auto.
  - destruct (cli_get_item cli a (cli_world st)) as [[e|[item|]] w].
    + destruct e as [text|text|text].
      * match goal with
        | |- context [check_each cli emails ?s] =>
            destruct (IH s) as (suffix & Hlog & Hres)
        end.
        exists (CliGetItem a :: CliPrint ("Error checking " ++ a ++ ": " ++ text)
                :: suffix).
        unfold cli_note in *. cbn [cli_log cli_world] in *. rewrite Hlog.
        split; [rewrite <- !app_assoc; reflexivity|].
        destruct (fst (check_each cli emails _)) as [e'|].
        -- destruct Hres as (Hne & k & Hk & Hl & Hp). split; [assumption|].
           exists (S k). cbn [looked_up printed List.length].
           rewrite Hl, Hp. split; [lia|]. split; reflexivity.
        -- destruct Hres as [Hl Hp]. cbn [looked_up printed List.length].
           rewrite Hl, Hp. split; reflexivity.
      * exists [CliGetItem a]. cbn. split; [reflexivity|].
        split; [discriminate|]. exists 0%nat. cbn.
        split; [lia|]. split; reflexivity.
      * exists [CliGetItem a]. cbn. split; [reflexivity|].
        split; [discriminate|]. exists 0%nat. cbn.
        split; [lia|]. split; reflexivity.
    + match goal with
      | |- context [check_each cli emails ?s] =>
          destruct (IH s) as (suffix & Hlog & Hres)
      end.
      exists (CliGetItem a :: CliPrintItem a item :: suffix).
      unfold cli_note in *. cbn [cli_log cli_world] in *. rewrite Hlog.
      split; [rewrite <- !app_assoc; reflexivity|].
      destruct (fst (check_each cli emails _)) as [e'|].
      * destruct Hres as (Hne & k & Hk & Hl & Hp). split; [assumption|].
        exists (S k). cbn [looked_up printed List.length].
        rewrite Hl, Hp. split; [lia|]. split; reflexivity.
      * destruct Hres as [Hl Hp]. cbn [looked_up printed List.length].
        rewrite Hl, Hp. split; reflexivity.
    + match goal with
      | |- context [check_each cli emails ?s] =>
          destruct (IH s) as (suffix & Hlog & Hres)
      end.
      exists (CliGetItem a :: CliPrint (a ++ " not found in the results.")
              :: suffix).
      unfold cli_note in *. cbn [cli_log cli_world] in *. rewrite Hlog.
      split; [rewrite <- !app_assoc; reflexivity|].
      destruct (fst (check_each cli emails _)) as [e'|].
      * destruct Hres as (Hne & k & Hk & Hl & Hp). split; [assumption|].
        exists (S k). cbn [looked_up printed List.length].
        rewrite Hl, Hp. split; [lia|]. split; reflexivity.
      * destruct Hres as [Hl Hp]. cbn [looked_up printed List.length].
        rewrite Hl, Hp. split; reflexivity.
Qed.

Lemma send_each_log queue_url emails :
  forall sent_count st,
    exists suffix,
      cli_log (snd (send_each cli queue_url emails sent_count st))
      = (cli_log st ++ suffix)%list
      /\ match fst (send_each cli queue_url emails sent_count st) with
         | inr total =>
             send_attempts suffix = emails
             /\ total = (sent_count + sends_done suffix)%nat
             /\ (printed suffix + sends_done suffix)%nat
                = List.length emails
         | inl e =>
             (exists text, e = CliOtherError text)
             /\ exists k,
                 (k < List.length emails)%nat
                 /\ send_attempts suffix = firstn (S k) emails
         end.
Proof.
  induction emails as [|a emails IH]; intros n st; cbn [send_each].
  - exists []. cbn. rewrite app_nil_r.
    split; [reflexivity|]. split; [reflexivity|]. split; lia.
  - destruct (cli_send_message cli queue_url a (cli_world st))
      as [[e|[]] w].
    + destruct e as [text|text|text].
      * match goal with
        | |- context [send_each cli queue_url emails ?m ?s] =>
            destruct (IH m s) as (suffix & Hlog & Hres)
        end.
        exists (CliSendMessage a false
                :: CliPrint ("Error sending " ++ a ++ " to queue: " ++ text)
                :: suffix).
        unfold cli_note in *. cbn [cli_log cli_world] in *. rewrite Hlog.
        split; [rewrite <- !app_assoc; reflexivity|].
        destruct (fst (send_each cli queue_url emails n _)) as [e'|total].
        -- destruct Hres as (He & k & Hk & Hl). split; [assumption|].
           exists (S k). cbn [send_attempts List.length]. rewrite Hl.
           split; [lia | reflexivity].
        -- destruct Hres as (Hl & Ht & Hp).
           cbn [send_attempts sends_done printed List.length]. rewrite Hl.
           split; [reflexivity|]. split; lia.
      * match goal with
        | |- context [send_each cli queue_url emails ?m ?s] =>
            destruct (IH m s) as (suffix & Hlog & Hres)
        end.
        exists (CliSendMessage a false
                :: CliPrint ("Invalid email format for " ++ a ++ ": " ++ text)
                :: suffix).
        unfold cli_note in *. cbn [cli_log cli_world] in *. rewrite Hlog.
        split; [rewrite <- !app_assoc; reflexivity|].
        destruct (fst (send_each cli queue_url emails n _)) as [e'|total].
        -- destruct Hres as (He & k & Hk & Hl). split; [assumption|].
           exists (S k). cbn [send_attempts List.length]. rewrite Hl.
           split; [lia | reflexivity].
        -- destruct Hres as (Hl & Ht & Hp).
           cbn [send_attempts sends_done printed List.length]. rewrite Hl.
           split; [reflexivity|]. split; lia.
      * exists [CliSendMessage a false]. cbn. split; [reflexivity|].
        split; [eauto|]. exists 0%nat. cbn. split; [lia | reflexivity].
    + match goal with
      | |- context [send_each cli queue_url emails ?m ?s] =>
          destruct (IH m s) as (suffix & Hlog & Hres)
      end.
      exists (CliSendMessage a true :: suffix).
      cbn [cli_log cli_world] in *. rewrite Hlog.
      split; [rewrite <- !app_assoc; reflexivity|].
      destruct (fst (send_each cli queue_url emails (n + 1) _))
        as [e'|total].
      * destruct Hres as (He & k & Hk & Hl). split; [assumption|].
        exists (S k). cbn [send_attempts List.length]. rewrite Hl.
        split; [lia | reflexivity].
      * destruct Hres as (Hl & Ht & Hp).
        cbn [send_attempts sends_done printed List.length]. rewrite Hl.
        split; [reflexivity|]. split; lia.
Qed.

End UtilityFacts.

(** [check_emails]: when the table cannot be loaded for a [ClientError] it
    prints one line and looks nothing up.  Otherwise it looks the addresses
    up in order, one [get_item] each, and prints exactly one line per
    address, found, not found or failed for a [ClientError]; only an
    exception of another class stops it, at the address that raised it. *)
Theorem check_emails_one_line_per_address
        {World : Type} (cli : CliCollaborators World)
        (table_name : string) (emails : list string) (st : CliState World) :
  exists suffix,
    cli_log (snd (check_emails cli table_name emails st))
    = (cli_log st ++ CliTableLoad :: suffix)%list
    /\ match fst (cli_table_load cli (cli_world st)) with
       | inl (ClientError text) =>
           fst (check_emails cli table_name emails st) = None
           /\ suffix = [CliPrint ("Error: Could not access table '"
                                  ++ table_name ++ "': " ++ text)]
       | inl e =>
           fst (check_emails cli table_name emails st) = Some e
           /\ suffix = []
       | inr _ =>
           match fst (check_emails cli table_name emails st) with
           | None =>
               looked_up suffix = emails
               /\ printed suffix = List.length emails
           | Some e =>
               (forall text, e <> ClientError text)
               /\ exists k,
                   (k < List.length emails)%nat
                   /\ looked_up suffix = firstn (S k) emails
                   /\ printed suffix = k
           end
       end.
Proof.
  unfold check_emails.
  destruct (cli_table_load cli (cli_world st)) as [[e|[]] w]; cbn [fst].
  - destruct e as [text|text|text]; eexists; cbn;
      rewrite <- ?app_assoc; split; reflexivity || auto.
  - destruct (check_each_log cli emails
                (mk_cli w (cli_log st ++ [CliTableLoad])))
      as (suffix & Hlog & Hres).
    exists suffix. rewrite Hlog. cbn [cli_log]. rewrite <- app_assoc.
    split; [reflexivity | exact Hres].
Qed.

(** [send_test_emails]: when the queue cannot be reached for a
    [ClientError] it prints one line and sends nothing.  Otherwise it tries
    every address once, in order, going on after a [ClientError] or a
    [ValueError] with one printed line for it; its last line reports the
    number of messages that were sent, or that none was.  Only an exception
    of another class stops it, at the address that raised it. *)
Theorem send_test_emails_counts_what_it_sent
        {World : Type} (cli : CliCollaborators World)
        (queue_url : string) (emails : list string) (st : CliState World) :
  exists suffix,
    cli_log (snd (send_test_emails cli queue_url emails st))
    = (cli_log st ++ CliQueueAttributes :: suffix)%list
    /\ match fst (cli_queue_attributes cli queue_url (cli_world st)) with
       | inl (ClientError text) =>
           fst (send_test_emails cli queue_url emails st) = None
           /\ suffix = [CliPrint ("Error: Could not access queue '"
                                  ++ queue_url ++ "': " ++ text)]
       | inl e =>
           fst (send_test_emails cli queue_url emails st) = Some e
           /\ suffix = []
       | inr _ =>
           match fst (send_test_emails cli queue_url emails st) with
           | None =>
               exists sends,
                 suffix
                 = (sends
                    ++ [CliPrint
                          (if (0 <? sends_done sends)%nat
                           then "Sent "
                                ++ str_of_Z (Z.of_nat (sends_done sends))
                                ++ " emails to the queue."
                           else "No emails sent successfully.")])%list
                 /\ send_attempts sends = emails
                 /\ (printed sends + sends_done sends)%nat
                    = List.length emails
           | Some e =>
               (exists text, e = CliOtherError text)
               /\ exists k,
                   (k < List.length emails)%nat
                   /\ send_attempts suffix = firstn (S k) emails
           end
       end.
Proof.
  unfold send_test_emails.
  destruct (cli_queue_attributes cli queue_url (cli_world st))
    as [[e|[]] w]; cbn [fst].
  - destruct e as [text|text|text]; eexists; cbn;
      rewrite <- ?app_assoc; split; reflexivity || auto.
  - destruct (send_each_log cli queue_url emails 0
                (mk_cli w (cli_log st ++ [CliQueueAttributes])))
      as (sends & Hlog & Hres).
    destruct (send_each cli queue_url emails 0 _) as [[e|total] st2];
      cbn [fst snd cli_log] in *.
    + exists sends. rewrite Hlog, <- app_assoc.
      split; [reflexivity | exact Hres].
    + destruct Hres as (Hl & Ht & Hp). cbn in Ht. subst total.
      destruct (0 <? sends_done sends)%nat eqn:E; cbn [fst snd];
        unfold cli_note; cbn [cli_log]; rewrite Hlog;
        (eexists; split; [rewrite <- !app_assoc; reflexivity|]);
        exists sends; rewrite E; auto.
Qed.

(** A queue that refuses every second message: two of three are sent. *)
Example send_test_emails_partial :
  cli_log
    (snd (send_test_emails
            {| cli_table_load := fun w => (inr tt, w);
               cli_get_item := fun _ w => (inr None, w);
               cli_queue_attributes := fun _ w => (inr tt, w);
               cli_send_message := fun _ _ w =>
                 (if Nat.even w then inr tt else inl (ClientError "throttled"),
                  S w) |}
            "queue" ["a@b.c"; "d@e.f"; "g@h.i"] (mk_cli 0%nat [])))
  = [CliQueueAttributes;
     CliSendMessage "a@b.c" true;
     CliSendMessage "d@e.f" false;
     CliPrint "Error sending d@e.f to queue: throttled";
     CliSendMessage "g@h.i" true;
     CliPrint "Sent 2 emails to the queue."].
Proof. reflexivity. Qed.
